(** * notiontree.hierarchy: a shallow embedding

    The Python module [notiontree/hierarchy.py] mirrors a directory of
    Markdown files as pages of a remote workspace.  This file embeds

    - the string and path primitives the module calls ([str] methods,
      [os.path]),
    - [Page], [PageType] and [build_local_hierarchy] over a model of
      [os.walk],
    - the three remote phases ([create_notion_hierarchy],
      [update_link_notion_hierarchy], [move_pages_notion_hierarchy]) in an
      exception-and-trace monad whose environment answers every outside
      call,
    - the link resolver ([_resolve_github_wiki_link], [_resolve_link]) and
      the [re.sub] pass that drives it,

    and then states and proves the properties of the specification.

    Python [str] values are modelled as [string]; a character is a byte, so
    a non-ASCII string is read as its UTF-8 encoding.  Logging and the
    timing that feeds it are left out: they decide nothing. *)

From Stdlib Require Import Ascii String ZArith Lia.
From stdpp Require Import base list strings gmap.

Local Open Scope Z_scope.

(** ** Python [str] primitives *)

Module Str.

Abbreviation s2l := list_ascii_of_string.
Abbreviation l2s := string_of_list_ascii.

Definition sep : ascii := "/"%char.

Definition ascii_eqb (a b : ascii) : bool := bool_decide (a = b).

(** [l.startswith(p)] *)
Fixpoint starts (p l : list ascii) : bool :=
  match p, l with
  | [], _ => true
  | _ :: _, [] => false
  | a :: p', b :: l' => ascii_eqb a b && starts p' l'
  end.

(** [l.endswith(p)] *)
Definition ends (p l : list ascii) : bool := starts (rev p) (rev l).

(** [l.rfind(c)], [-1] when [c] does not occur. *)
Fixpoint rfind (c : ascii) (l : list ascii) : Z :=
  match l with
  | [] => -1
  | x :: r =>
      let j := rfind c r in
      if 0 <=? j then j + 1 else if ascii_eqb x c then 0 else -1
  end.

(** [l.find(c)], [-1] when [c] does not occur. *)
Fixpoint find (c : ascii) (l : list ascii) : Z :=
  match l with
  | [] => -1
  | x :: r =>
      if ascii_eqb x c then 0
      else let j := find c r in if 0 <=? j then j + 1 else -1
  end.

(** The slices [l[:i]] and [l[i:]] for [0 <= i]. *)
Definition upto (i : Z) (l : list ascii) : list ascii := take (Z.to_nat i) l.
Definition from (i : Z) (l : list ascii) : list ascii := drop (Z.to_nat i) l.

(** [l.rstrip(c)] *)
Fixpoint rstrip (c : ascii) (l : list ascii) : list ascii :=
  match l with
  | [] => []
  | x :: r =>
      match rstrip c r with
      | [] => if ascii_eqb x c then [] else [x]
      | r' => x :: r'
      end
  end.

(** [l == c * len(l)] *)
Definition all_char (c : ascii) (l : list ascii) : bool :=
  forallb (fun x => ascii_eqb x c) l.

(** [l.split(c)]: the fields between the occurrences of [c]; never empty. *)
Fixpoint split (c : ascii) (l : list ascii) : list (list ascii) :=
  match l with
  | [] => [[]]
  | x :: r =>
      if ascii_eqb x c then [] :: split c r
      else match split c r with
           | [] => [[x]]
           | f :: fs => (x :: f) :: fs
           end
  end.

(** [c.join(fields)] *)
Fixpoint join_with (c : ascii) (fields : list (list ascii)) : list ascii :=
  match fields with
  | [] => []
  | [f] => f
  | f :: fs => f ++ c :: join_with c fs
  end.

(** [l.replace(old, "")]: every non-overlapping occurrence of [old], found
    left to right, is removed.  [skip] counts the characters of the
    occurrence being removed that are still to be passed over. *)
Fixpoint remove_go (old : list ascii) (skip : nat) (l : list ascii)
  : list ascii :=
  match l with
  | [] => []
  | x :: r =>
      match skip with
      | S k => remove_go old k r
      | O => if starts old l then remove_go old (pred (length old)) r
             else x :: remove_go old O r
      end
  end.

Definition remove_all (old l : list ascii) : list ascii :=
  match old with
  | [] => l
  | _ :: _ => remove_go old O l
  end.


(** The same operations on [string]. *)
Definition startswith (s p : string) : bool := starts (s2l p) (s2l s).
Definition endswith (s p : string) : bool := ends (s2l p) (s2l s).
Definition replace_empty (s old : string) : string :=
  l2s (remove_all (s2l old) (s2l s)).
(** [s[1:-1]] *)
Definition strip_ends (s : string) : string :=
  l2s (removelast (tail (s2l s))).

End Str.

(** ** [os.path] (the POSIX flavour) *)

Module Path.
Import Str.

(** [posixpath.join(a, b)] *)
Definition join (a b : string) : string :=
  if startswith b "/" then b
  else if bool_decide (a = "") || endswith a "/" then a +:+ b
  else a +:+ "/" +:+ b.

(** [posixpath.dirname(p)] *)
Definition dirname (p : string) : string :=
  let l := s2l p in
  let i := rfind sep l + 1 in
  let head := upto i l in
  l2s (if negb (bool_decide (head = [])) && negb (all_char sep head)
       then rstrip sep head
       else head).

(** [posixpath.basename(p)] *)
Definition basename (p : string) : string :=
  let l := s2l p in
  let i := rfind sep l + 1 in
  l2s (from i l).

(** The loop of [posixpath.normpath] over the components. *)
Fixpoint norm_comps (initial_slashes : nat) (comps new_comps : list (list ascii))
  : list (list ascii) :=
  match comps with
  | [] => new_comps
  | comp :: rest =>
      if bool_decide (comp = []) || bool_decide (comp = s2l ".")
      then norm_comps initial_slashes rest new_comps
      else if negb (bool_decide (comp = s2l ".."))
              || (bool_decide (initial_slashes = O)
                  && bool_decide (new_comps = []))
              || (negb (bool_decide (new_comps = []))
                  && bool_decide (last new_comps = Some (s2l "..")))
      then norm_comps initial_slashes rest (new_comps ++ [comp])
      else if negb (bool_decide (new_comps = []))
      then norm_comps initial_slashes rest (removelast new_comps)
      else norm_comps initial_slashes rest new_comps
  end.

(** [posixpath.normpath(path)] *)
Definition normpath (path : string) : string :=
  if bool_decide (path = "") then "."
  else
    let initial_slashes :=
      if startswith path "/" then
        if startswith path "//" && negb (startswith path "///")
        then 2%nat else 1%nat
      else O in
    let comps := norm_comps initial_slashes (split sep (s2l path)) [] in
    let path' :=
      l2s (replicate initial_slashes sep ++ join_with sep comps) in
    if bool_decide (path' = "") then "." else path'.

End Path.

(** ** Pages *)

Inductive PageType := ROOT | NODE | LEAVE.

#[global] Instance PageType_eq_dec : EqDecision PageType.
Proof. solve_decision. Defined.

(** A [PageBlock] is the handle of a remote page; the remote service names
    it by its [id]. *)
Record PageBlock := mkPageBlock { block_id : string }.

#[global] Instance PageBlock_eq_dec : EqDecision PageBlock.
Proof. solve_decision. Defined.

Record Page := mkPage {
  type : PageType;
  parent_filename : string;
  filename : string;
  notion_url : option string;
  notion_page : option PageBlock
}.

(** [Page(type, parent_filename, filename)], the two optional arguments
    left at their default [None]. *)
Definition new_Page (t : PageType) (parent file : string) : Page :=
  mkPage t parent file None None.

Definition is_index (p : Page) : bool :=
  bool_decide (filename p = "index.md")
  || Str.endswith (filename p) "/index.md".

Definition title (p : Page) : string :=
  if is_index p then Path.basename (Path.dirname (filename p))
  else Path.basename (filename p).

(** ** The directory walk *)

(** A directory: its sub-directories by name, in listing order, and the
    names of its other entries. *)
#[local] Unset Elimination Schemes.
Inductive tree := Dir (dirs : list (string * tree)) (files : list string).
#[local] Set Elimination Schemes.

(** [dirnames.remove(".git")], on the entries the names stand for. *)
Fixpoint remove_git {A} (entries : list (string * A)) : list (string * A) :=
  match entries with
  | [] => []
  | (n, a) :: rest =>
      if bool_decide (n = ".git") then rest else (n, a) :: remove_git rest
  end.

(** One step of [os.walk(top)], top-down: the triple
    [(dirpath, dirnames, filenames)] is handed to the loop body, which may
    prune [dirnames] in place; the generator then descends into the names
    that are left.  [build_local_hierarchy] prunes [".git"]; the walk of each
    sub-directory is computed lazily, as a function of its path, so that a
    pruned directory is never walked.  ([dirs] are the directories the
    walk can enter: a symbolic link to a directory, or a directory that
    cannot be listed, has no pages of its own and is left out.) *)
Fixpoint os_walk (t : tree) (top : string)
  : list (string * list string * list string) :=
  match t with
  | Dir dirs files =>
      let subwalks := map (fun e => (fst e, os_walk (snd e))) dirs in
      let dirnames := map fst dirs in
      (top, dirnames, files)
        :: flat_map (fun e => snd e (Path.join top (fst e)))
             (if bool_decide (".git" ∈ dirnames) then remove_git subwalks
              else subwalks)
  end.

(** The pages appended for one visited directory. *)
Definition pages_of_dir (walk_index : nat)
    (entry : string * list string * list string) : list Page :=
  let '(dirpath, _, filenames) := entry in
  let node := Path.join dirpath "index.md" in
  (if bool_decide (walk_index = O) then new_Page ROOT "" node
   else
     let parent := Path.join (Path.dirname dirpath) "index.md" in
     new_Page NODE parent node)
  :: flat_map
       (fun f =>
          if negb (bool_decide (f = "index.md")) && Str.endswith f ".md"
          then [new_Page LEAVE node (Path.join dirpath f)]
          else [])
       filenames.

(** [for walk_index, entry in enumerate(...)], appending to [hierarchy];
    [t] is the directory found at [path]. *)
Fixpoint enumerate_from {A} (i : nat) (l : list A) : list (nat * A) :=
  match l with
  | [] => []
  | x :: r => (i, x) :: enumerate_from (S i) r
  end.

Definition build_local_hierarchy (t : tree) (path : string) : list Page :=
  flat_map (fun ie => pages_of_dir (fst ie) (snd ie))
    (enumerate_from O (os_walk t path)).

(** ** The outside world

    Everything the module asks of the remote service and of the file
    system is an operation; [op X] is an operation answered with an [X].
    The run keeps the trace of the operations issued, and the environment
    answers each one from the trace so far: any deterministic service and
    file system is an environment. *)

Inductive exn :=
  | KeyError (key : string)   (* a [dict] lookup that misses *)
  | AttributeError            (* an attribute of [None] *)
  | IOError                   (* an [IOError], that is [OSError], of the outside *)
  | Failure.                  (* any other exception of the outside *)

#[global] Instance exn_eq_dec : EqDecision exn.
Proof. solve_decision. Defined.

Definition is_IOError (e : exn) : bool :=
  match e with IOError => true | _ => false end.

Inductive op : Type → Type :=
  (** [get_notion_client()] *)
  | NewClient : op unit
  (** [client.get_block(url)]; [None] for a page that does not exist *)
  | GetBlock (url : string) : op (option PageBlock)
  (** [parent.children.add_new(PageBlock, title=title)] *)
  | AddNew (parent : PageBlock) (title : string) : op PageBlock
  (** [open(filename).read()] *)
  | ReadFile (filename : string) : op string
  (** [tempfile.NamedTemporaryFile(...)]: a new, empty scratch file, by name *)
  | NewScratch : op string
  (** [tmp_f.write(content); tmp_f.flush()] on the scratch file [name] *)
  | WriteScratch (name content : string) : op unit
  (** [client.import_file(name, page_id=page.id, timeout=60)] *)
  | ImportFile (name : string) (page : PageBlock) : op unit
  (** [page.title = title] *)
  | SetTitle (page : PageBlock) (title : string) : op unit
  (** [page.move_to(parent, "first-child")] *)
  | MoveTo (page parent : PageBlock) : op unit.

Inductive event := Ev : ∀ {X : Type}, op X → event.

Definition trace := list event.

Definition Env := ∀ X : Type, trace → op X → exn + X.

(** A computation: from the trace so far to an exception or a value, and
    the trace extended with the operations issued. *)
Definition M (A : Type) : Type := trace → (exn + A) * trace.

Definition ret {A} (a : A) : M A := fun tr => (inr a, tr).

Definition raise {A} (e : exn) : M A := fun tr => (inl e, tr).

Definition bind {A B} (m : M A) (k : A → M B) : M B :=
  fun tr =>
    match m tr with
    | (inl e, tr') => (inl e, tr')
    | (inr a, tr') => k a tr'
    end.

(** [try: m  except IOError: handler] *)
Definition try_IOError {A} (m : M A) (handler : M A) : M A :=
  fun tr =>
    match m tr with
    | (inl e, tr') => if is_IOError e then handler tr' else (inl e, tr')
    | (inr a, tr') => (inr a, tr')
    end.

Declare Scope prog_scope.
Delimit Scope prog_scope with prog.
Notation "x <- m ;; k" := (bind m (fun x => k))
  (at level 100, m at next level, right associativity) : prog_scope.
Notation "m ;; k" := (bind m (fun _ => k))
  (at level 100, right associativity) : prog_scope.

(** [for x in l: body(x)] *)
Fixpoint for_each {A} (body : A → M unit) (l : list A) : M unit :=
  match l with
  | [] => ret tt
  | x :: r => (body x ;; for_each body r)%prog
  end.

(** [for x in l: st = body(st, x)], the variables the loop assigns
    threaded as [st]. *)
Fixpoint for_fold {A S} (body : S → A → M S) (l : list A) (st : S) : M S :=
  match l with
  | [] => ret st
  | x :: r => (st' <- body st x ;; for_fold body r st')%prog
  end.

(** [d[k]] *)
Definition getitem (d : gmap string PageBlock) (k : string) : M PageBlock :=
  match d !! k with
  | Some v => ret v
  | None => raise (KeyError k)
  end.

(** ** [urllib.parse]

    A model of the two library functions the wiki resolver calls, on the
    inputs on which the library does not raise ([urlsplit] raises
    [ValueError] on a network location with unbalanced brackets). *)

Module Urllib.
Import Str.

Definition in_str (c : ascii) (s : string) : bool :=
  bool_decide (c ∈ s2l s).

Definition is_alpha (c : ascii) : bool :=
  let n := nat_of_ascii c in
  ((65 <=? n)%nat && (n <=? 90)%nat) || ((97 <=? n)%nat && (n <=? 122)%nat).

Definition is_digit (c : ascii) : bool :=
  let n := nat_of_ascii c in (48 <=? n)%nat && (n <=? 57)%nat.

Definition scheme_char (c : ascii) : bool :=
  is_alpha c || is_digit c || in_str c "+-.".

Definition lower (c : ascii) : ascii :=
  let n := nat_of_ascii c in
  if (65 <=? n)%nat && (n <=? 90)%nat then ascii_of_nat (n + 32) else c.

Fixpoint drop_while (P : ascii → bool) (l : list ascii) : list ascii :=
  match l with
  | [] => []
  | x :: r => if P x then drop_while P r else l
  end.

Fixpoint take_while (P : ascii → bool) (l : list ascii) : list ascii :=
  match l with
  | [] => []
  | x :: r => if P x then x :: take_while P r else []
  end.

Definition uses_params : list string :=
  [""; "ftp"; "hdl"; "prospero"; "http"; "imap"; "https"; "shttp"; "rtsp";
   "rtspu"; "sip"; "sips"; "mms"; "sftp"; "tel"].

(** [_splitparams(url)[0]] *)
Definition splitparams (url : list ascii) : list ascii :=
  let semi := ";"%char in
  if bool_decide (sep ∈ url) then
    let k := Z.to_nat (rfind sep url) in
    let j := find semi (drop k url) in
    if j <? 0 then url else take (k + Z.to_nat j) url
  else upto (find semi url) url.

(** [urlparse(url).path] *)
Definition urlparse_path (url : string) : string :=
  (* leading C0 control characters and spaces, then tab, CR, LF anywhere *)
  let u := drop_while (fun c => (nat_of_ascii c <=? 32)%nat) (s2l url) in
  let u := List.filter (fun c => negb (bool_decide (nat_of_ascii c ∈ [9; 10; 13]%nat))) u in
  (* scheme *)
  let i := find ":"%char u in
  let '(scheme, u) :=
    if (0 <? i) && match u with c :: _ => is_alpha c | [] => false end
       && forallb scheme_char (upto i u)
    then (map lower (upto i u), from (i + 1) u)
    else ([], u) in
  (* network location *)
  let u :=
    if starts [sep; sep] u
    then drop_while (fun c => negb (in_str c "/?#")) (drop 2 u)
    else u in
  (* fragment, query, parameters *)
  let u := take_while (fun c => negb (ascii_eqb c "#")) u in
  let u := take_while (fun c => negb (ascii_eqb c "?")) u in
  l2s (if bool_decide (l2s scheme ∈ uses_params)
          && bool_decide (";"%char ∈ u)
       then splitparams u else u).

Definition hex_value (c : ascii) : option nat :=
  let n := nat_of_ascii c in
  if is_digit c then Some (n - 48)%nat
  else if (65 <=? n)%nat && (n <=? 70)%nat then Some (n - 55)%nat
  else if (97 <=? n)%nat && (n <=? 102)%nat then Some (n - 87)%nat
  else None.

(** [unquote(s)]: each [%XX] with two hexadecimal digits is the byte
    [XX]; any other [%] stands for itself.  (The library then reads the
    bytes as UTF-8, replacing malformed sequences; the replacement is not
    modelled.) *)
Fixpoint unquote_list (l : list ascii) : list ascii :=
  match l with
  | [] => []
  | c :: r =>
      if ascii_eqb c "%" then
        match r with
        | h1 :: h2 :: rest =>
            match hex_value h1, hex_value h2 with
            | Some a, Some b => ascii_of_nat (16 * a + b) :: unquote_list rest
            | _, _ => c :: unquote_list r
            end
        | _ => c :: unquote_list r
        end
      else c :: unquote_list r
  end.

Definition unquote (s : string) : string := l2s (unquote_list (s2l s)).

End Urllib.

(** ** [re.sub(r"\(.+\)", resolver, content)] *)

Module Re.
Import Str.

Definition newline : ascii := "010"%char.

(** The match of [\(.+\)] at the head of [l], if there is one: after the
    opening parenthesis, [.+] takes every character up to the end of the
    line, then gives characters back until a closing parenthesis follows;
    it keeps at least one character. *)
Definition match_here (l : list ascii) : option (list ascii) :=
  match l with
  | c :: rest =>
      if ascii_eqb c "(" then
        let line := Urllib.take_while (fun x => negb (ascii_eqb x newline)) rest in
        let j := rfind ")"%char line in
        if 1 <=? j then Some (c :: upto (j + 1) line) else None
      else None
  | [] => None
  end.

(** The scan of [re.sub]: the leftmost match is replaced and the scan
    resumes after it; where nothing matches, the character is kept.
    [skip] counts the characters of the last match still to be passed. *)
Fixpoint sub_go (repl : string → string) (skip : nat) (l : list ascii)
  : list ascii :=
  match l with
  | [] => []
  | x :: r =>
      match skip with
      | S k => sub_go repl k r
      | O =>
          match match_here l with
          | Some m => s2l (repl (l2s m)) ++ sub_go repl (pred (length m)) r
          | None => x :: sub_go repl O r
          end
      end
  end.

Definition sub (repl : string → string) (content : string) : string :=
  l2s (sub_go repl O (s2l content)).

End Re.

(** ** The three phases *)

Section Program.

(** [PageBlock.get_browseable_url()] *)
Variable get_browseable_url : PageBlock → string.
(** [urllib.parse.urlparse(_).path] and [urllib.parse.unquote] *)
Variable urlparse_path : string → string.
Variable unquote : string → string.
(** The remote service and the file system. *)
Variable env : Env.

Local Open Scope prog_scope.

(** Issue an operation: the environment answers from the trace so far,
    and the operation is added to the trace. *)
Definition call {X} (o : op X) : M X :=
  fun tr =>
    (env X tr o, tr ++ [Ev o]).

Definition get_notion_client : M unit := call NewClient.

Definition get_notion_page (url : string) : M (option PageBlock) :=
  get_notion_client ;; call (GetBlock url).

Definition create_notion_page (page : Page) (parent : option PageBlock)
  : M PageBlock :=
  match parent with
  | None => raise AttributeError
  | Some p => call (AddNew p (title page))
  end.

Definition export_notion_page (notion_page : PageBlock) (page : Page)
    (filename : string) : M unit :=
  get_notion_client ;;
  try_IOError
    (call (ImportFile filename notion_page))
    (f <- call NewScratch ;; call (ImportFile f notion_page)) ;;
  call (SetTitle notion_page (title page)).

(** The body of the loop of [create_notion_hierarchy]; the state is
    [(filename_to_notion, root_notion_page)]. *)
Definition create_body (root_parent_url : string) (flat : bool)
    (st : gmap string PageBlock * option PageBlock) (page : Page)
  : M (gmap string PageBlock * option PageBlock) :=
  let '(filename_to_notion, root_notion_page) := st in
  parent <-
    (if bool_decide (type page = ROOT) then get_notion_page root_parent_url
     else if flat then ret root_notion_page
     else p <- getitem filename_to_notion (parent_filename page) ;;
          ret (Some p)) ;;
  notion_page <- create_notion_page page parent ;;
  ret (<[filename page := notion_page]> filename_to_notion,
       if bool_decide (type page = ROOT) then Some notion_page
       else root_notion_page).

Definition create_loop (root_parent_url : string) (flat : bool)
    (hierarchy : list Page)
  : M (gmap string PageBlock * option PageBlock) :=
  for_fold (create_body root_parent_url flat) hierarchy (∅, None).

Definition create_notion_hierarchy (root_parent_url : string)
    (hierarchy : list Page) (flat : bool) : M (gmap string PageBlock) :=
  st <- create_loop root_parent_url flat hierarchy ;;
  ret (fst st).

Definition _resolve_github_wiki_link (original_ref github_wiki_root dir : string)
  : option string :=
  let github_wiki_root :=
    if negb (Str.endswith github_wiki_root "/")
    then github_wiki_root +:+ "/" else github_wiki_root in
  if Str.startswith original_ref github_wiki_root then
    let ref := unquote (urlparse_path original_ref) in
    let wiki_path := unquote (urlparse_path github_wiki_root) in
    let ref := Str.replace_empty ref wiki_path in
    let ref := ref +:+ ".md" in
    let ref := Path.join dir ref in
    Some ref
  else None.

(** The loop over [github_wiki_roots], left at the first root that
    resolves the reference. *)
Fixpoint first_wiki_ref (original_ref : string) (github_wiki_roots : list string)
    (dir : string) : option string :=
  match github_wiki_roots with
  | [] => None
  | github_wiki_root :: rest =>
      match _resolve_github_wiki_link original_ref github_wiki_root dir with
      | Some ref => Some ref
      | None => first_wiki_ref original_ref rest dir
      end
  end.

(** [_resolve_link]; [group0] is [matchobj.group(0)]. *)
Definition _resolve_link (group0 : string) (page : Page)
    (filename_to_notion : gmap string PageBlock) (dir : string)
    (github_wiki_roots : list string) : string :=
  let original_ref := Str.strip_ends group0 in
  let resolved :=
    if Str.startswith original_ref "./" then
      Some (Path.normpath
              (Path.join (Path.dirname (filename page)) original_ref))
    else first_wiki_ref original_ref github_wiki_roots dir in
  match resolved with
  | None => "(" +:+ original_ref +:+ ")"
  | Some resolved_ref =>
      let notion_url :=
        match filename_to_notion !! resolved_ref with
        | Some b => get_browseable_url b
        | None => original_ref
        end in
      "(" +:+ notion_url +:+ ")"
  end.

(** The text exported for a page whose source reads as [content]. *)
Definition rewrite_links (page : Page)
    (filename_to_notion : gmap string PageBlock) (dir : string)
    (github_wiki_roots : list string) (content : string) : string :=
  Re.sub
    (fun group0 =>
       _resolve_link group0 page filename_to_notion dir github_wiki_roots)
    content.

(** The body of the loop of [update_link_notion_hierarchy]. *)
Definition update_link_body (filename_to_notion : gmap string PageBlock)
    (dir : string) (github_wiki_roots : list string) (page : Page) : M unit :=
  if bool_decide (type page = ROOT) then ret tt
  else
    content <-
      try_IOError
        (text <- call (ReadFile (filename page)) ;;
         ret (Some text))
        (ret None) ;;
    let content :=
      match content with
      | None => ""
      | Some text =>
          rewrite_links page filename_to_notion dir github_wiki_roots text
      end in
    tmp_f <- call NewScratch ;;
    call (WriteScratch tmp_f content) ;;
    notion_page <- getitem filename_to_notion (filename page) ;;
    export_notion_page notion_page page tmp_f.

Definition update_link_notion_hierarchy (hierarchy : list Page)
    (filename_to_notion : gmap string PageBlock) (dir : string)
    (github_wiki_roots : list string) : M unit :=
  for_each (update_link_body filename_to_notion dir github_wiki_roots)
    hierarchy.

(** The body of the loop of [move_pages_notion_hierarchy]. *)
Definition move_body (filename_to_notion : gmap string PageBlock)
    (page : Page) : M unit :=
  if bool_decide (type page = ROOT) then ret tt
  else
    parent_notion_page <- getitem filename_to_notion (parent_filename page) ;;
    notion_page <- getitem filename_to_notion (filename page) ;;
    call (MoveTo notion_page parent_notion_page).

Definition move_pages_notion_hierarchy (hierarchy : list Page)
    (filename_to_notion : gmap string PageBlock) : M unit :=
  for_each (move_body filename_to_notion) (rev hierarchy).

Definition file_hierarchy_to_notion (root_parent_url : string) (t : tree)
    (path : string) (github_wiki_roots : list string) : M unit :=
  let hierarchy := build_local_hierarchy t path in
  filename_to_notion <-
    create_notion_hierarchy root_parent_url hierarchy true ;;
  update_link_notion_hierarchy hierarchy filename_to_notion path
    github_wiki_roots ;;
  move_pages_notion_hierarchy hierarchy filename_to_notion.

End Program.

(** ** The hierarchy as the specification describes it *)

(** The names a file system gives its entries: not empty, no separator. *)
Definition name_ok (n : string) : bool :=
  negb (bool_decide (n = "")) && negb (bool_decide (Str.sep ∈ Str.s2l n)).

Fixpoint wf_tree (t : tree) : bool :=
  match t with
  | Dir dirs _ => forallb (fun e => name_ok (fst e) && wf_tree (snd e)) dirs
  end.

(** A path spelled without redundant trailing separators: it does not end
    in two separators, unless it consists of separators only. *)
Definition path_ok (p : string) : bool :=
  Str.all_char Str.sep (Str.s2l p) || negb (Str.endswith p "//").

(** A file that becomes a leaf page. *)
Definition is_leaf_name (f : string) : bool :=
  negb (bool_decide (f = "index.md")) && Str.endswith f ".md".

Definition count_type (ty : PageType) (h : list Page) : nat :=
  length (filter (fun p => type p = ty) h).

(** The number of leaf files listed in the directories of a walk. *)
Definition leaf_files (w : list (string * list string * list string)) : nat :=
  list_sum (map (fun e => length (filter (fun f => is_leaf_name f = true) (snd e))) w).

(** Referential integrity in traversal order: a parent that is named is
    the [filename] of a descriptor strictly earlier in the sequence. *)
Definition parents_earlier (h : list Page) : Prop :=
  ∀ (i : nat) (p : Page), h !! i = Some p → parent_filename p ≠ "" →
    ∃ (j : nat) (q : Page),
      (j < i)%nat ∧ h !! j = Some q ∧ filename q = parent_filename p.

(** The same, computed with the filenames seen so far. *)
Fixpoint closed_under (seen : list string) (h : list Page) : bool :=
  match h with
  | [] => true
  | p :: r =>
      (bool_decide (parent_filename p = "")
       || bool_decide (parent_filename p ∈ seen))
      && closed_under (filename p :: seen) r
  end.

(** [h] is closed under every extension of [seen]. *)
Definition Closed (seen : list string) (h : list Page) : Prop :=
  ∀ seen', seen ⊆ seen' → closed_under seen' h = true.

(** A path that is not empty and does not end in a separator. *)
Definition clean (p : string) : Prop :=
  ∃ a x, Str.s2l p = a ++ [x] ∧ x ≠ Str.sep.

(** The hierarchy as the specification describes it: the index page of a
    directory, the leaves of the directory under that index, then every
    sub-directory that is not pruned, each as a Node under that index. *)
Definition leaves_of (index top : string) (files : list string) : list Page :=
  flat_map
    (fun f => if is_leaf_name f then [new_Page LEAVE index (Path.join top f)]
              else [])
    files.

Fixpoint spec_pages (t : tree) (kind : PageType) (parent top : string)
  : list Page :=
  match t with
  | Dir dirs files =>
      let index := Path.join top "index.md" in
      new_Page kind parent index
        :: leaves_of index top files
        ++ flat_map (fun e => snd e NODE index (Path.join top (fst e)))
             (remove_git (map (fun e => (fst e, spec_pages (snd e))) dirs))
  end.

Definition spec_hierarchy (t : tree) (path : string) : list Page :=
  spec_pages t ROOT "" path.

(** The directories a walk visits, and the leaf files listed in them,
    counted on the tree: a pruned [".git"] and what is below it do not
    count. *)
Fixpoint visited_dirs (t : tree) : nat :=
  match t with
  | Dir dirs _ =>
      S (list_sum
           (map snd (remove_git (map (fun e => (fst e, visited_dirs (snd e))) dirs))))
  end.

Fixpoint visited_leaves (t : tree) : nat :=
  match t with
  | Dir dirs files =>
      (length (filter (fun f => is_leaf_name f = true) files)
       + list_sum
           (map snd
              (remove_git (map (fun e => (fst e, visited_leaves (snd e))) dirs))))%nat
  end.

(** The leaf files of the whole tree, those below a [".git"] directory
    included. *)
Fixpoint markdown_files (t : tree) : nat :=
  match t with
  | Dir dirs files =>
      (length (filter (fun f => is_leaf_name f = true) files)
       + list_sum (map (fun e => markdown_files (snd e)) dirs))%nat
  end.

(** A repository with Markdown files below its [".git"] directory. *)
Definition tree_with_git : tree :=
  Dir [(".git", Dir [("hooks", Dir [] ["c.md"])] ["a.md"; "b.md"])] ["r.md"].

(** ** The phases as the specification describes them *)

(** Creation, descriptor by descriptor: the remote parent is the page the
    root parent URL resolves to for the Root; with [flat], the handle of
    the Root already created; otherwise the handle the mapping holds for
    [parent_filename].  The page is created under that parent with the
    descriptor's title, and the handle returned is recorded under
    [filename].  [m] is the mapping and [root] the handle of the Root
    created so far; [tr] is the trace, and the environment answers as the
    descriptions require. *)
Fixpoint created_as_specified (env : Env) (root_parent_url : string)
    (flat : bool) (hierarchy : list Page)
    (m : gmap string PageBlock) (root : option PageBlock) (tr : trace)
    (m_end : gmap string PageBlock) (tr_end : trace) : Prop :=
  match hierarchy with
  | [] => m_end = m ∧ tr_end = tr
  | page :: rest =>
      ∃ (parent handle : PageBlock) (tr' : trace),
        (if bool_decide (type page = ROOT) then
           env _ tr NewClient = inr tt
           ∧ env _ (tr ++ [Ev NewClient]) (GetBlock root_parent_url)
             = inr (Some parent)
           ∧ tr' = tr ++ [Ev NewClient; Ev (GetBlock root_parent_url)]
         else if flat then root = Some parent ∧ tr' = tr
         else m !! parent_filename page = Some parent ∧ tr' = tr)
        ∧ env _ tr' (AddNew parent (title page)) = inr handle
        ∧ created_as_specified env root_parent_url flat rest
            (<[filename page := handle]> m)
            (if bool_decide (type page = ROOT) then Some handle else root)
            (tr' ++ [Ev (AddNew parent (title page))])
            m_end tr_end
  end.

(** A mapping is complete for a hierarchy when it has the handle of every
    descriptor that is not the Root, and of its parent. *)
Definition has_entries (m : gmap string PageBlock) (page : Page) : Prop :=
  is_Some (m !! parent_filename page) ∧ is_Some (m !! filename page).

Definition complete (m : gmap string PageBlock) (hierarchy : list Page) : Prop :=
  Forall (fun page => type page ≠ ROOT → has_entries m page) hierarchy.

(** Some descriptor that is not the Root lacks an entry, for its parent or
    for itself. *)
Definition no_entry (m : gmap string PageBlock) (page : Page) : Prop :=
  m !! parent_filename page = None ∨ m !! filename page = None.

Definition lacks_entry (m : gmap string PageBlock) (hierarchy : list Page) : Prop :=
  Exists (fun page => type page ≠ ROOT ∧ no_entry m page) hierarchy.

(** The service carries out every move it is asked for. *)
Definition moves_succeed (env : Env) : Prop :=
  ∀ (tr : trace) (page parent : PageBlock),
    env unit tr (MoveTo page parent) = inr tt.

(** The move of a descriptor's page under the page of its parent. *)
Definition is_move_of (m : gmap string PageBlock) (page : Page) (e : event) : Prop :=
  ∃ notion_page parent_notion_page,
    m !! filename page = Some notion_page
    ∧ m !! parent_filename page = Some parent_notion_page
    ∧ e = Ev (MoveTo notion_page parent_notion_page).

(** One move for each descriptor that is not the Root, in the reverse of
    the order of the hierarchy. *)
Definition moves_in_reverse (m : gmap string PageBlock) (hierarchy : list Page)
    (evs : list event) : Prop :=
  Forall2 (is_move_of m)
    (filter (fun page => type page ≠ ROOT) (rev hierarchy)) evs.

(** An import is among the operations of a trace. *)
Definition is_import (e : event) : bool :=
  match e with
  | @Ev _ (ImportFile _ _) => true
  | _ => false
  end.

(** ** Sample environments and inputs *)

(** A service and file system that answer every operation, except as the
    three switches say: whether a source file can be read, whether a
    scratch file can be written, and whether an import succeeds given the
    trace so far.  A new page is named after its parent and its title, a
    new scratch file after the length of the trace. *)
Definition sample_env (readable writable : bool) (importable : trace → bool)
  : Env :=
  fun X tr o =>
    match o in op X return exn + X with
    | NewClient => inr tt
    | GetBlock url => inr (Some (mkPageBlock url))
    | AddNew parent title => inr (mkPageBlock (block_id parent +:+ ">" +:+ title))
    | ReadFile f => if readable then inr ("See (./index.md)") else inl IOError
    | NewScratch => inr ("scratch" +:+ String.concat "" (map (fun _ => "+") tr))
    | WriteScratch _ _ => if writable then inr tt else inl IOError
    | ImportFile _ _ => if importable tr then inr tt else inl IOError
    | SetTitle _ _ => inr tt
    | MoveTo _ _ => inr tt
    end.

Definition env_ok : Env := sample_env true true (fun _ => true).

(** The scratch file cannot be written. *)
Definition env_write_fails : Env := sample_env true false (fun _ => true).

(** The first import fails, later ones succeed. *)
Definition env_first_import_fails : Env :=
  sample_env true true (fun tr => existsb is_import tr).

(** Every import fails. *)
Definition env_import_fails : Env := sample_env true true (fun _ => false).

(** The tree [root > a > a/b.md]. *)
Definition sample_tree : tree := Dir [("a", Dir [] ["b.md"])] [].

Definition sample_hierarchy : list Page :=
  [new_Page ROOT "" "root/index.md";
   new_Page NODE "root/index.md" "root/a/index.md";
   new_Page LEAVE "root/a/index.md" "root/a/b.md"].

Definition sample_mapping : gmap string PageBlock :=
  <["root/index.md" := mkPageBlock "R"]>
    (<["root/a/index.md" := mkPageBlock "A"]>
       (<["root/a/b.md" := mkPageBlock "B"]> ∅)).

(** The entry of [a] is missing. *)
Definition broken_mapping : gmap string PageBlock :=
  <["root/index.md" := mkPageBlock "R"]>
    (<["root/a/b.md" := mkPageBlock "B"]> ∅).

Definition sample_url (b : PageBlock) : string :=
  "https://www.notion.so/" +:+ block_id b.


(** A document [docs/guide.md] next to [docs/a.md] and [docs/b.md], both
    with a page. *)
Definition guide_page : Page := new_Page LEAVE "docs/index.md" "docs/guide.md".

Definition guide_mapping : gmap string PageBlock :=
  <["docs/a.md" := mkPageBlock "A"]> (<["docs/b.md" := mkPageBlock "B"]> ∅).

(** The link rewriting of [update_link_notion_hierarchy] for that
    document, with the library model of [urllib.parse]. *)
Definition rewrite_guide (content : string) : string :=
  rewrite_links sample_url Urllib.urlparse_path Urllib.unquote guide_page
    guide_mapping "docs" ["https://example.com/proj/wiki"] content.

(** ** Further notions of the hierarchy and of the service *)

(** The names of the files are names, in every directory. *)
Fixpoint files_ok (t : tree) : bool :=
  match t with
  | Dir dirs files =>
      forallb name_ok files && forallb (fun e => files_ok (snd e)) dirs
  end.

(** The entry the loop body prunes, with [d] in the place of what it
    stands for. *)
Fixpoint empty_git {A} (d : A) (entries : list (string * A))
  : list (string * A) :=
  match entries with
  | [] => []
  | (n, a) :: rest =>
      if bool_decide (n = ".git") then (n, d) :: rest
      else (n, a) :: empty_git d rest
  end.

(** The tree with every pruned [".git"] emptied, at every depth. *)
Fixpoint forget_git (t : tree) : tree :=
  match t with
  | Dir dirs files =>
      Dir (empty_git (Dir [] []) (map (fun e => (fst e, forget_git (snd e))) dirs))
        files
  end.

(** A service and file system on which the run can rely: every operation
    is carried out, the root parent exists, and a source file is read or
    is not there. *)
Record reliable (env : Env) : Prop := {
  rel_client : ∀ tr, env unit tr NewClient = inr tt;
  rel_block : ∀ tr url, ∃ b, env _ tr (GetBlock url) = inr (Some b);
  rel_add : ∀ tr parent title, ∃ b, env _ tr (AddNew parent title) = inr b;
  rel_read : ∀ tr f,
    env _ tr (ReadFile f) = inl IOError ∨ ∃ text, env _ tr (ReadFile f) = inr text;
  rel_scratch : ∀ tr, ∃ f, env _ tr NewScratch = inr f;
  rel_write : ∀ tr f content, env unit tr (WriteScratch f content) = inr tt;
  rel_import : ∀ tr f page, env unit tr (ImportFile f page) = inr tt;
  rel_title : ∀ tr page title, env unit tr (SetTitle page title) = inr tt;
  rel_move : moves_succeed env
}.

Definition is_move (e : event) : bool :=
  match e with
  | @Ev _ (MoveTo _ _) => true
  | _ => false
  end.

Definition is_add_new (e : event) : bool :=
  match e with
  | @Ev _ (AddNew _ _) => true
  | _ => false
  end.


(** Every descriptor that is not a Root names, as its parent, the
    filename of a descriptor before it. *)
Fixpoint parents_known (seen : list string) (h : list Page) : bool :=
  match h with
  | [] => true
  | p :: r =>
      (bool_decide (type p = ROOT) || bool_decide (parent_filename p ∈ seen))
      && parents_known (filename p :: seen) r
  end.

(** A descriptor stands for a Markdown file, under an index page if it is
    not the Root. *)
Definition markdown_names (p : Page) : Prop :=
  Str.endswith (filename p) ".md" = true
  ∧ (type p = ROOT → parent_filename p = "")
  ∧ (type p ≠ ROOT → Str.endswith (parent_filename p) "index.md" = true).

(** The content written to the scratch file of a page, from the answer to
    the reading of its source: the text with its links rewritten, or
    nothing when the source cannot be read. *)
Definition exported_content (get_browseable_url : PageBlock → string)
    (urlparse_path unquote : string → string) (page : Page)
    (m : gmap string PageBlock) (dir : string) (roots : list string)
    (answer : exn + string) : string :=
  match answer with
  | inr text =>
      rewrite_links get_browseable_url urlparse_path unquote page m dir roots
        text
  | inl _ => ""
  end.



(** Environments in which one operation goes wrong: no source file is
    there; reading, or importing, raises an error that is not an I/O
    error; no client can be had. *)
Definition env_no_source : Env := sample_env false true (fun _ => true).

Definition env_read_crashes : Env :=
  fun X tr o =>
    match o in op X return exn + X with
    | ReadFile _ => inl Failure
    | o' => env_ok _ tr o'
    end.

Definition env_import_crashes : Env :=
  fun X tr o =>
    match o in op X return exn + X with
    | ImportFile _ _ => inl Failure
    | o' => env_ok _ tr o'
    end.

Definition env_no_client : Env :=
  fun X tr o =>
    match o in op X return exn + X with
    | NewClient => inl IOError
    | o' => env_ok _ tr o'
    end.


(** The filenames of the hierarchy of a tree, relative to the path the
    tree is walked from: the index page of the directory, the leaf files
    of the directory, then what every sub-directory that is not pruned
    gives, under its name. *)
Fixpoint relnames (t : tree) : list string :=
  match t with
  | Dir dirs files =>
      "index.md"
        :: List.filter is_leaf_name files
        ++ flat_map (fun e => map (fun r => fst e +:+ "/" +:+ r) (snd e))
             (remove_git (map (fun e => (fst e, relnames (snd e))) dirs))
  end.

(** No directory lists a name twice, among its sub-directories or among
    its other entries. *)
Fixpoint unique_names (t : tree) : bool :=
  match t with
  | Dir dirs files =>
      bool_decide (NoDup (map fst dirs)) && bool_decide (NoDup files)
      && forallb (fun e => unique_names (snd e)) dirs
  end.

(** What [join path _] puts before a name. *)
Definition join_prefix (path : string) : string :=
  if bool_decide (path = "") || Str.endswith path "/" then path
  else path +:+ "/".

(** The descriptors that are not the Root. *)
Definition non_roots (h : list Page) : list Page :=
  filter (fun page => type page ≠ ROOT) h.

(** * Properties *)

(** ** Strings *)

Section StrFacts.
Import Str.

Lemma s2l_app (a b : string) : s2l (a +:+ b) = s2l a ++ s2l b.
Proof. induction a as [|c a IH]; simpl; [done | by rewrite IH]. Qed.

Lemma l2s_s2l (s : string) : l2s (s2l s) = s.
Proof. apply string_of_list_ascii_of_string. Qed.

Lemma s2l_l2s (l : list ascii) : s2l (l2s l) = l.
Proof. apply list_ascii_of_string_of_list_ascii. Qed.

Lemma s2l_inj (a b : string) : s2l a = s2l b → a = b.
Proof. intros H. rewrite <- (l2s_s2l a), <- (l2s_s2l b). by rewrite H. Qed.

Lemma l2s_app (a b : list ascii) : l2s (a ++ b) = l2s a +:+ l2s b.
Proof. apply s2l_inj. by rewrite s2l_app, !s2l_l2s. Qed.

Lemma ascii_eqb_true (a b : ascii) : ascii_eqb a b = true ↔ a = b.
Proof. unfold ascii_eqb. by rewrite bool_decide_eq_true. Qed.

Lemma ascii_eqb_refl (a : ascii) : ascii_eqb a a = true.
Proof. by apply ascii_eqb_true. Qed.

Lemma ascii_eqb_ne (a b : ascii) : a ≠ b → ascii_eqb a b = false.
Proof. unfold ascii_eqb. by rewrite bool_decide_eq_false. Qed.


Lemma starts_spec (p l : list ascii) :
  starts p l = true ↔ ∃ r, l = p ++ r.
Proof.
  revert l. induction p as [|a p IH]; intros l; simpl.
  - split; [eauto | done].
  - destruct l as [|b l].
    + split; [done | by intros [r Hr]].
    + rewrite andb_true_iff, ascii_eqb_true, IH. split.
      * intros [-> [r ->]]. eauto.
      * intros [r Hr]. simplify_eq. eauto.
Qed.

Lemma ends_snoc (c x : ascii) (a : list ascii) :
  ends [c] (a ++ [x]) = ascii_eqb c x.
Proof. unfold ends. rewrite rev_app_distr. simpl. by rewrite andb_true_r. Qed.

Lemma ends_nil (c : ascii) : ends [c] [] = false.
Proof. done. Qed.

Lemma rfind_absent (c : ascii) (l : list ascii) : c ∉ l → rfind c l = -1.
Proof.
  induction l as [|x l IH]; simpl; [done|].
  intros [Hx Hl]%not_elem_of_cons. rewrite (IH Hl). simpl.
  rewrite ascii_eqb_ne; [done | congruence].
Qed.

Lemma rfind_last (c : ascii) (a n : list ascii) :
  c ∉ n → rfind c (a ++ c :: n) = Z.of_nat (length a).
Proof.
  intros Hn. induction a as [|x a IH]; simpl.
  - rewrite (rfind_absent _ _ Hn). simpl. by rewrite ascii_eqb_refl.
  - rewrite IH. destruct (0 <=? Z.of_nat (length a)) eqn:E; [lia|].
    apply Z.leb_gt in E. lia.
Qed.

Lemma rstrip_snoc_ne (c x : ascii) (a : list ascii) :
  x ≠ c → rstrip c (a ++ [x]) = a ++ [x].
Proof.
  intros Hx. induction a as [|y a IH]; simpl.
  - by rewrite ascii_eqb_ne.
  - rewrite IH. by destruct a.
Qed.

Lemma rstrip_snoc_eq (c : ascii) (a : list ascii) :
  rstrip c (a ++ [c]) = rstrip c a.
Proof.
  induction a as [|y a IH]; simpl.
  - by rewrite ascii_eqb_refl.
  - by rewrite IH.
Qed.

Lemma all_char_app (c : ascii) (a b : list ascii) :
  all_char c (a ++ b) = all_char c a && all_char c b.
Proof. unfold all_char. apply forallb_app. Qed.

Lemma snoc_cases {A} (l : list A) : l = [] ∨ ∃ a x, l = a ++ [x].
Proof.
  destruct l as [|y l] using rev_ind; [by left | right; eauto].
Qed.

End StrFacts.

(** ** Paths *)

Section PathFacts.
Import Str Path.

Lemma name_ok_spec (n : string) :
  name_ok n = true → s2l n ≠ [] ∧ sep ∉ s2l n.
Proof.
  unfold name_ok. rewrite andb_true_iff, !negb_true_iff,
    !bool_decide_eq_false.
  intros [Hne Hsep]. split; [|done].
  intros Hnil. apply Hne. apply s2l_inj. by rewrite Hnil.
Qed.

Lemma name_ok_no_lead (n : string) :
  name_ok n = true → startswith n "/" = false.
Proof.
  intros [Hne Hsep]%name_ok_spec. unfold startswith. simpl.
  destruct (s2l n) as [|b l]; [done|].
  rewrite andb_true_r. apply ascii_eqb_ne. intros <-. apply Hsep. left.
Qed.

Lemma name_ok_clean_end (n : string) :
  name_ok n = true → ∃ a x, s2l n = a ++ [x] ∧ x ≠ sep.
Proof.
  intros [Hne Hsep]%name_ok_spec.
  destruct (snoc_cases (s2l n)) as [?|(a & x & E)]; [done|].
  exists a, x. split; [done|]. intros ->. apply Hsep. rewrite E.
  apply elem_of_app. right. left.
Qed.

Lemma clean_not_empty (p : string) : clean p → p ≠ "".
Proof. intros (a & x & E & _) ->. by destruct a. Qed.

Lemma clean_endswith (p : string) : clean p → endswith p "/" = false.
Proof.
  intros (a & x & E & Hx). unfold endswith. rewrite E. simpl.
  change (ends [sep] (a ++ [x]) = false). rewrite ends_snoc.
  apply ascii_eqb_ne. congruence.
Qed.

Lemma join_clean (top n : string) :
  clean top → name_ok n = true → join top n = top +:+ "/" +:+ n.
Proof.
  intros Hc Hn. unfold join. rewrite (name_ok_no_lead _ Hn).
  rewrite (clean_endswith _ Hc).
  rewrite bool_decide_eq_false_2; [done | by apply clean_not_empty].
Qed.

Lemma join_index_clean (top : string) :
  clean top → join top "index.md" = top +:+ "/index.md".
Proof. intros Hc. by rewrite (join_clean top "index.md" Hc). Qed.

(** Whatever the directory, the path of an entry is clean. *)
Lemma join_name_clean (top n : string) :
  name_ok n = true → clean (join top n).
Proof.
  intros Hn. destruct (name_ok_clean_end _ Hn) as (a & x & E & Hx).
  unfold join. rewrite (name_ok_no_lead _ Hn).
  destruct (_ || _).
  - exists (s2l top ++ a), x. by rewrite s2l_app, E, app_assoc.
  - exists (s2l top ++ sep :: a), x.
    rewrite !s2l_app, E. simpl. by rewrite <- app_assoc.
Qed.

Lemma dirname_sep_name (a n : list ascii) :
  sep ∉ n →
  dirname (l2s (a ++ sep :: n))
  = l2s (if all_char sep (a ++ [sep]) then a ++ [sep]
         else rstrip sep (a ++ [sep])).
Proof.
  intros Hn. unfold dirname. rewrite s2l_l2s, (rfind_last _ _ _ Hn).
  unfold upto. replace (Z.to_nat (Z.of_nat (length a) + 1)) with
    (length (a ++ [sep])) by (rewrite length_app; simpl; lia).
  replace (a ++ sep :: n) with ((a ++ [sep]) ++ n) by
    (by rewrite <- app_assoc).
  rewrite take_app_length.
  rewrite bool_decide_eq_false_2 by (by destruct a). simpl.
  by destruct (all_char sep (a ++ [sep])).
Qed.

(** The parent of an entry of a clean directory is that directory. *)
Lemma dirname_join_clean (top n : string) :
  clean top → name_ok n = true → dirname (join top n) = top.
Proof.
  intros Hc Hn. rewrite (join_clean _ _ Hc Hn).
  destruct (name_ok_spec _ Hn) as [_ Hsep].
  destruct Hc as (a & x & E & Hx).
  rewrite <- (l2s_s2l (top +:+ "/" +:+ n)), !s2l_app. simpl.
  change ("/"%char) with sep.
  rewrite (dirname_sep_name _ _ Hsep).
  rewrite all_char_app, E, all_char_app. simpl.
  rewrite (ascii_eqb_ne x sep Hx), andb_false_r. simpl.
  rewrite rstrip_snoc_eq, (rstrip_snoc_ne _ _ _ Hx), <- E.
  apply l2s_s2l.
Qed.

Lemma dirname_no_sep (n : string) : sep ∉ s2l n → dirname n = "".
Proof.
  intros Hn. unfold dirname. rewrite (rfind_absent _ _ Hn). done.
Qed.

Lemma all_char_rstrip (c : ascii) (l : list ascii) :
  all_char c l = true → rstrip c l = [].
Proof.
  induction l as [|x l IH]; simpl; [done|].
  rewrite andb_true_iff. intros [Hx Hl]. by rewrite (IH Hl), Hx.
Qed.

(** At the root of the walk: when the path is spelled without redundant
    trailing separators, the index of the parent of an entry is the
    index of the root. *)
Lemma parent_index_root (path n : string) :
  path_ok path = true → name_ok n = true →
  join (dirname (join path n)) "index.md" = join path "index.md".
Proof.
  intros Hp Hn.
  destruct (snoc_cases (s2l path)) as [Hnil|(a & x & E)].
  { assert (path = "") as -> by (apply s2l_inj; by rewrite Hnil).
    assert (join "" n = n) as ->.
    { unfold join. by rewrite (name_ok_no_lead _ Hn). }
    destruct (name_ok_spec _ Hn) as [_ Hsep].
    by rewrite (dirname_no_sep _ Hsep). }
  destruct (decide (x = sep)) as [->|Hx].
  2:{ rewrite dirname_join_clean; [done | by exists a, x | done]. }
  destruct (name_ok_spec _ Hn) as [_ Hsep].
  assert (join path n = l2s (a ++ sep :: s2l n)) as ->.
  { unfold join. rewrite (name_ok_no_lead _ Hn).
    assert (endswith path "/" = true) as ->.
    { unfold endswith. rewrite E. apply (ends_snoc sep sep a). }
    rewrite orb_true_r. apply s2l_inj.
    rewrite s2l_app, s2l_l2s, E. by rewrite <- app_assoc. }
  rewrite (dirname_sep_name _ _ Hsep).
  destruct (all_char sep (a ++ [sep])) eqn:Hall.
  { by rewrite <- E, l2s_s2l. }
  rewrite rstrip_snoc_eq.
  unfold path_ok in Hp. rewrite E, Hall in Hp. simpl in Hp.
  apply negb_true_iff in Hp.
  destruct (snoc_cases a) as [->|(b & y & ->)]; [done|].
  assert (y ≠ sep) as Hy.
  { intros ->. unfold endswith in Hp. rewrite E in Hp.
    unfold ends in Hp. rewrite !rev_app_distr in Hp. simpl in Hp.
    done. }
  rewrite (rstrip_snoc_ne _ _ _ Hy).
  rewrite join_index_clean by (exists b, y; by rewrite s2l_l2s).
  unfold join. simpl.
  assert (endswith path "/" = true) as ->.
  { unfold endswith. rewrite E. apply (ends_snoc sep sep). }
  rewrite orb_true_r. apply s2l_inj.
  rewrite !s2l_app, s2l_l2s, E. simpl. by rewrite <- (app_assoc _ [sep]).
Qed.

End PathFacts.

(** ** The hierarchy builder *)

Section Hierarchy.
Import Str Path.

Lemma tree_ind (P : tree → Prop) :
  (∀ dirs files, Forall (fun e => P (snd e)) dirs → P (Dir dirs files)) →
  ∀ t, P t.
Proof.
  intros H. fix IH 1. intros [dirs files]. apply H.
  induction dirs as [|[n t] ds IHds]; constructor; [apply IH | apply IHds].
Qed.

Lemma remove_git_absent {A} (l : list (string * A)) :
  ".git" ∉ map fst l → remove_git l = l.
Proof.
  induction l as [|[n a] l IH]; simpl; [done|].
  intros [Hn Hl]%not_elem_of_cons.
  rewrite bool_decide_eq_false_2 by done. by rewrite IH.
Qed.

Lemma remove_git_map {A B} (f : A → B) (l : list (string * A)) :
  remove_git (map (fun e => (fst e, f (snd e))) l)
  = map (fun e => (fst e, f (snd e))) (remove_git l).
Proof.
  induction l as [|[n a] l IH]; simpl; [done|].
  destruct (bool_decide (n = ".git")); [done|]. simpl. by rewrite IH.
Qed.

Lemma remove_git_Forall {A} (P : string * A → Prop) (l : list (string * A)) :
  Forall P l → Forall P (remove_git l).
Proof.
  induction 1 as [|[n a] l Hx Hl IH]; simpl; [constructor|].
  destruct (bool_decide (n = ".git")); [done | by constructor].
Qed.

Lemma map_fst_map {A B} (f : A → B) (l : list (string * A)) :
  map fst (map (fun e => (fst e, f (snd e))) l) = map fst l.
Proof. induction l as [|[n a] l IH]; simpl; [done | by rewrite IH]. Qed.

(** The pruning test of the loop body is the pruning itself. *)
Lemma pruned_walks {A B} (f : A → B) (l : list (string * A)) :
  (if bool_decide (".git" ∈ map fst l)
   then remove_git (map (fun e => (fst e, f (snd e))) l)
   else map (fun e => (fst e, f (snd e))) l)
  = remove_git (map (fun e => (fst e, f (snd e))) l).
Proof.
  case_bool_decide as H; [done|]. symmetry. apply remove_git_absent.
  by rewrite map_fst_map.
Qed.

Lemma os_walk_eq (dirs : list (string * tree)) (files : list string)
    (top : string) :
  os_walk (Dir dirs files) top
  = (top, map fst dirs, files)
      :: flat_map (fun e => os_walk (snd e) (join top (fst e)))
           (remove_git dirs).
Proof.
  simpl. f_equal.
  rewrite (pruned_walks os_walk), (remove_git_map os_walk), flat_map_concat_map,
    map_map. by rewrite <- flat_map_concat_map.
Qed.

Lemma spec_pages_eq (dirs : list (string * tree)) (files : list string)
    (kind : PageType) (parent top : string) :
  spec_pages (Dir dirs files) kind parent top
  = new_Page kind parent (join top "index.md")
      :: leaves_of (join top "index.md") top files
      ++ flat_map
           (fun e => spec_pages (snd e) NODE (join top "index.md")
                       (join top (fst e)))
           (remove_git dirs).
Proof.
  simpl. do 2 f_equal.
  rewrite (remove_git_map spec_pages), flat_map_concat_map, map_map.
  by rewrite <- flat_map_concat_map.
Qed.

Lemma flat_map_flat_map {A B C} (f : B → list C) (g : A → list B)
    (l : list A) :
  flat_map f (flat_map g l) = flat_map (fun x => flat_map f (g x)) l.
Proof.
  induction l as [|x l IH]; simpl; [done|].
  by rewrite flat_map_app, IH.
Qed.

Lemma flat_map_Forall_ext {A B} (f g : A → list B) (l : list A) :
  Forall (fun x => f x = g x) l → flat_map f l = flat_map g l.
Proof. induction 1 as [|x l Hx Hl IH]; simpl; [done | by rewrite Hx, IH]. Qed.

Lemma pages_of_dir_later (i : nat) e :
  pages_of_dir (S i) e = pages_of_dir 1 e.
Proof. by destruct e as [[d ns] fs]. Qed.

Lemma pages_later (w : list (string * list string * list string)) (i : nat) :
  flat_map (fun ie => pages_of_dir (fst ie) (snd ie)) (enumerate_from (S i) w)
  = flat_map (pages_of_dir 1) w.
Proof.
  revert i. induction w as [|e w IH]; intros i; simpl; [done|].
  by rewrite IH, pages_of_dir_later.
Qed.

Lemma build_eq (dirs : list (string * tree)) (files : list string)
    (path : string) :
  build_local_hierarchy (Dir dirs files) path
  = new_Page ROOT "" (join path "index.md")
      :: leaves_of (join path "index.md") path files
      ++ flat_map
           (fun e => flat_map (pages_of_dir 1)
                       (os_walk (snd e) (join path (fst e))))
           (remove_git dirs).
Proof.
  unfold build_local_hierarchy. rewrite os_walk_eq.
  cbn [enumerate_from flat_map fst snd].
  rewrite pages_later, flat_map_flat_map. done.
Qed.

(** Below the root, the builder produces the pages the specification
    describes, whatever the spelling of the root path. *)
Lemma walk_nodes (t : tree) :
  ∀ top, wf_tree t = true → clean top →
    flat_map (pages_of_dir 1) (os_walk t top)
    = spec_pages t NODE (join (dirname top) "index.md") top.
Proof.
  induction t as [dirs files IH] using tree_ind. intros top Hwf Hc.
  rewrite os_walk_eq, spec_pages_eq. cbn [flat_map pages_of_dir].
  rewrite bool_decide_eq_false_2 by done.
  rewrite flat_map_flat_map. cbn [app]. f_equal.
  unfold leaves_of, is_leaf_name. f_equal.
  apply flat_map_Forall_ext, remove_git_Forall.
  simpl in Hwf. rewrite forallb_forall in Hwf.
  rewrite Forall_forall in IH |- *. intros [n sub] Hin.
  specialize (Hwf _ (proj1 (list_elem_of_In _ _) Hin)).
  apply andb_true_iff in Hwf as [Hn Hsub]. cbn [fst snd] in *.
  pose proof (IH _ Hin (join top n) Hsub (join_name_clean _ _ Hn)) as E.
  cbn [fst snd] in E. rewrite E.
  by rewrite (dirname_join_clean _ _ Hc Hn).
Qed.

(** From a root path spelled without redundant trailing separators, the
    builder produces the hierarchy the specification describes. *)
Lemma build_refines_spec (t : tree) (path : string) :
  wf_tree t = true → path_ok path = true →
  build_local_hierarchy t path = spec_hierarchy t path.
Proof.
  destruct t as [dirs files]. intros Hwf Hp.
  unfold spec_hierarchy. rewrite build_eq, spec_pages_eq.
  f_equal. f_equal.
  apply flat_map_Forall_ext, remove_git_Forall.
  simpl in Hwf. rewrite forallb_forall in Hwf.
  rewrite Forall_forall. intros [n sub] Hin.
  specialize (Hwf _ (proj1 (list_elem_of_In _ _) Hin)).
  apply andb_true_iff in Hwf as [Hn Hsub]. cbn [fst snd] in *.
  rewrite (walk_nodes sub _ Hsub (join_name_clean _ _ Hn)).
  by rewrite (parent_index_root _ _ Hp Hn).
Qed.

End Hierarchy.

Section Integrity.
Import Str Path.

Lemma closed_under_app (seen : list string) (a b : list Page) :
  closed_under seen (a ++ b)
  = closed_under seen a
    && closed_under (rev (map filename a) ++ seen) b.
Proof.
  revert seen. induction a as [|p a IH]; intros seen; simpl; [done|].
  rewrite IH, <- app_assoc. simpl. by rewrite andb_assoc.
Qed.

Lemma Closed_nil (seen : list string) : Closed seen [].
Proof. by intros seen' _. Qed.

Lemma Closed_cons (seen : list string) (p : Page) (r : list Page) :
  parent_filename p = "" ∨ parent_filename p ∈ seen →
  Closed (filename p :: seen) r → Closed seen (p :: r).
Proof.
  intros Hp Hr seen' Hsub. simpl. apply andb_true_iff. split.
  - apply orb_true_iff. destruct Hp as [Hp|Hp].
    + left. by apply bool_decide_eq_true.
    + right. apply bool_decide_eq_true. by apply Hsub.
  - apply Hr. intros x [->|Hx]%elem_of_cons; [left | right; by apply Hsub].
Qed.

Lemma Closed_app (seen : list string) (a b : list Page) :
  Closed seen a → Closed seen b → Closed seen (a ++ b).
Proof.
  intros Ha Hb seen' Hsub. rewrite closed_under_app.
  apply andb_true_iff. split; [by apply Ha|]. apply Hb.
  intros x Hx. apply elem_of_app. right. by apply Hsub.
Qed.

Lemma Closed_weaken (seen seen' : list string) (h : list Page) :
  seen ⊆ seen' → Closed seen h → Closed seen' h.
Proof. intros Hsub Hh s Hs. apply Hh. intros x Hx. by apply Hs, Hsub. Qed.

Lemma Closed_flat_map {A} (seen : list string) (f : A → list Page)
    (l : list A) :
  Forall (fun x => Closed seen (f x)) l → Closed seen (flat_map f l).
Proof.
  induction 1 as [|x l Hx Hl IH]; simpl; [apply Closed_nil|].
  by apply Closed_app.
Qed.

Lemma Closed_leaves (seen : list string) (index top : string)
    (files : list string) :
  index ∈ seen → Closed seen (leaves_of index top files).
Proof.
  intros Hin. apply Closed_flat_map, Forall_forall. intros f _.
  destruct (is_leaf_name f); [|apply Closed_nil].
  apply Closed_cons; [by right | apply Closed_nil].
Qed.

Lemma Closed_spec_pages (t : tree) :
  ∀ kind parent top seen,
    parent = "" ∨ parent ∈ seen →
    Closed seen (spec_pages t kind parent top).
Proof.
  induction t as [dirs files IH] using tree_ind.
  intros kind parent top seen Hp. rewrite spec_pages_eq.
  apply Closed_cons; [done|]. apply Closed_app.
  - apply Closed_leaves. left.
  - apply Closed_flat_map, remove_git_Forall.
    rewrite Forall_forall in IH |- *. intros e He.
    apply (IH e He). right. left.
Qed.

Lemma closed_under_earlier (h : list Page) :
  ∀ seen, closed_under seen h = true →
    ∀ (i : nat) (p : Page), h !! i = Some p → parent_filename p ≠ "" →
      parent_filename p ∈ seen
      ∨ ∃ (j : nat) (q : Page),
          (j < i)%nat ∧ h !! j = Some q ∧ filename q = parent_filename p.
Proof.
  induction h as [|p0 h IH]; intros seen Hc i p Hi Hne; [done|].
  simpl in Hc. apply andb_true_iff in Hc as [Hp0 Hrest].
  destruct i as [|i]; simpl in Hi.
  - simplify_eq. apply orb_true_iff in Hp0 as [H|H].
    + by apply bool_decide_eq_true in H.
    + left. by apply bool_decide_eq_true in H.
  - destruct (IH _ Hrest i p Hi Hne) as [Hin|(j & q & Hj & Hq & Hf)].
    + apply elem_of_cons in Hin as [Heq|Hin]; [|by left].
      right. exists O, p0. split; [lia|]. by split.
    + right. exists (S j), q. split; [lia|]. by split.
Qed.

Lemma closed_parents_earlier (h : list Page) :
  closed_under [] h = true → parents_earlier h.
Proof.
  intros Hc i p Hi Hne.
  destruct (closed_under_earlier h [] Hc i p Hi Hne) as [Hin|H]; [|done].
  by apply elem_of_nil in Hin.
Qed.

Lemma count_type_app (ty : PageType) (a b : list Page) :
  count_type ty (a ++ b) = (count_type ty a + count_type ty b)%nat.
Proof. unfold count_type. by rewrite filter_app, length_app. Qed.

Lemma count_type_leaves (ty : PageType) (index top : string)
    (files : list string) :
  count_type ty (leaves_of index top files)
  = if bool_decide (ty = LEAVE)
    then length (filter (fun f => is_leaf_name f = true) files)
    else O.
Proof.
  induction files as [|f files IH]; simpl.
  - by destruct (bool_decide _).
  - rewrite count_type_app, IH, filter_cons.
    destruct (is_leaf_name f) eqn:E.
    + rewrite decide_True by done.
      destruct ty; by case_bool_decide.
    + rewrite decide_False by done. done.
Qed.

Lemma leaves_of_eq (dirpath : string) (files : list string) :
  flat_map
    (fun f =>
       if negb (bool_decide (f = "index.md")) && endswith f ".md"
       then [new_Page LEAVE (join dirpath "index.md") (join dirpath f)]
       else [])
    files
  = leaves_of (join dirpath "index.md") dirpath files.
Proof. done. Qed.

(** The pages of the directories after the first: a Node each, and the
    leaves. *)
Lemma count_later (ty : PageType)
    (w : list (string * list string * list string)) :
  count_type ty (flat_map (pages_of_dir 1) w)
  = match ty with
    | ROOT => O
    | NODE => length w
    | LEAVE => leaf_files w
    end.
Proof.
  induction w as [|[[d ns] fs] w IH].
  - by destruct ty.
  - cbn [flat_map pages_of_dir]. rewrite bool_decide_eq_false_2 by done.
    rewrite leaves_of_eq, count_type_app, IH.
    change (new_Page NODE ?a ?b :: ?l) with ([new_Page NODE a b] ++ l).
    rewrite count_type_app, count_type_leaves.
    destruct ty; unfold leaf_files; simpl; try done.
Qed.

Lemma count_build (ty : PageType) (t : tree) (path : string) :
  count_type ty (build_local_hierarchy t path)
  = match ty with
    | ROOT => 1%nat
    | NODE => pred (length (os_walk t path))
    | LEAVE => leaf_files (os_walk t path)
    end.
Proof.
  destruct t as [dirs files]. rewrite build_eq, os_walk_eq.
  change (new_Page ROOT ?a ?b :: ?l) with ([new_Page ROOT a b] ++ l).
  rewrite <- flat_map_flat_map.
  rewrite !count_type_app, count_later, count_type_leaves.
  destruct ty; unfold leaf_files; simpl; try done.
Qed.

End Integrity.

Section Counting.
Import Str Path.

Lemma list_sum_flat_map_length {A B} (f : A → list B) (l : list A) :
  length (flat_map f l) = list_sum (map (fun x => length (f x)) l).
Proof.
  induction l as [|x l IH]; simpl; [done|]. by rewrite length_app, IH.
Qed.

Lemma leaf_files_app (a b : list (string * list string * list string)) :
  leaf_files (a ++ b) = (leaf_files a + leaf_files b)%nat.
Proof. unfold leaf_files. by rewrite map_app, list_sum_app. Qed.

Lemma leaf_files_flat_map {A}
    (f : A → list (string * list string * list string)) (l : list A) :
  leaf_files (flat_map f l) = list_sum (map (fun x => leaf_files (f x)) l).
Proof.
  induction l as [|x l IH]; simpl; [done|]. by rewrite leaf_files_app, IH.
Qed.

Lemma list_sum_Forall_ext {A} (f g : A → nat) (l : list A) :
  Forall (fun x => f x = g x) l →
  list_sum (map f l) = list_sum (map g l).
Proof. induction 1 as [|x l Hx Hl IH]; simpl; [done | by rewrite Hx, IH]. Qed.

Lemma walk_length (t : tree) :
  ∀ top, length (os_walk t top) = visited_dirs t.
Proof.
  induction t as [dirs files IH] using tree_ind. intros top.
  rewrite os_walk_eq. cbn [length visited_dirs]. f_equal.
  rewrite (remove_git_map visited_dirs), map_map, list_sum_flat_map_length.
  apply list_sum_Forall_ext, remove_git_Forall.
  rewrite Forall_forall in IH |- *. intros e He. apply (IH e He).
Qed.

Lemma walk_leaf_files (t : tree) :
  ∀ top, leaf_files (os_walk t top) = visited_leaves t.
Proof.
  induction t as [dirs files IH] using tree_ind. intros top.
  rewrite os_walk_eq. cbn [visited_leaves].
  change (?e :: ?l) with ([e] ++ l). rewrite leaf_files_app. f_equal.
  - unfold leaf_files. simpl. lia.
  - rewrite (remove_git_map visited_leaves), map_map, leaf_files_flat_map.
    apply list_sum_Forall_ext, remove_git_Forall.
    rewrite Forall_forall in IH |- *. intros e He. apply (IH e He).
Qed.

End Counting.

(** ** Claims about the hierarchy builder *)

(** From a root path spelled without redundant trailing separators, every
    tree gives a hierarchy with the integrity the specification asks for:
    it is the hierarchy [spec_hierarchy] describes (a Node under the index
    of its parent directory, a Leaf under the index of its directory),
    every named parent is the filename of an earlier descriptor, and there
    is one Root. *)
Theorem hierarchy_integrity (t : tree) (path : string) :
  wf_tree t = true → path_ok path = true →
  build_local_hierarchy t path = spec_hierarchy t path
  ∧ parents_earlier (build_local_hierarchy t path)
  ∧ count_type ROOT (build_local_hierarchy t path) = 1%nat.
Proof.
  intros Hwf Hp. split; [by apply build_refines_spec|]. split.
  - rewrite (build_refines_spec _ _ Hwf Hp). apply closed_parents_earlier.
    apply (Closed_spec_pages t ROOT "" path []); [by left | done].
  - apply (count_build ROOT).
Qed.

(** C1, at a root path with a redundant trailing separator: for the tree
    with one sub-directory [a] walked from ["root//"], the Node of [a]
    names the parent ["root/index.md"], while the Root has the filename
    ["root//index.md"]: no earlier descriptor has the filename the Node
    names, and the hierarchy is not the one the specification
    describes.  The run on that path ends in the [KeyError] of the move
    phase; on ["root/"] it completes. *)
Theorem C1_redundant_trailing_separator :
  let t := Dir [("a", Dir [] [])] [] in
  wf_tree t = true
  ∧ build_local_hierarchy t "root//"
    = [new_Page ROOT "" "root//index.md";
       new_Page NODE "root/index.md" "root//a/index.md"]
  ∧ spec_hierarchy t "root//"
    = [new_Page ROOT "" "root//index.md";
       new_Page NODE "root//index.md" "root//a/index.md"]
  ∧ ¬ parents_earlier (build_local_hierarchy t "root//")
  ∧ fst (file_hierarchy_to_notion sample_url Urllib.urlparse_path
           Urllib.unquote env_ok "URL" t "root//" [] [])
    = inl (KeyError "root/index.md")
  ∧ fst (file_hierarchy_to_notion sample_url Urllib.urlparse_path
           Urllib.unquote env_ok "URL" t "root/" [] [])
    = inr tt.
Proof.
  cbv zeta. split; [done|]. split; [by vm_compute|]. split; [by vm_compute|].
  split; [|by vm_compute].
  intros H.
  assert (build_local_hierarchy (Dir [("a", Dir [] [])] []) "root//" !! 1%nat
          = Some (new_Page NODE "root/index.md" "root//a/index.md")) as H1
    by (by vm_compute).
  destruct (H _ _ H1) as (j & q & Hj & Hq & Hf); [discriminate|].
  assert (j = 0%nat) as -> by lia.
  vm_compute in Hq. injection Hq as <-. discriminate Hf.
Qed.

(** C8: the Nodes and the Root are as many as the directories visited
    (the root directory included), there is one Root, and the Leaves are as
    many as the files, listed in the visited directories, whose name ends
    in [.md] and is not [index.md]. *)
Theorem C8_descriptor_counts (t : tree) (path : string) :
  let h := build_local_hierarchy t path in
  (count_type NODE h + count_type ROOT h)%nat = length (os_walk t path)
  ∧ length (os_walk t path) = visited_dirs t
  ∧ count_type ROOT h = 1%nat
  ∧ count_type LEAVE h = leaf_files (os_walk t path)
  ∧ leaf_files (os_walk t path) = visited_leaves t.
Proof.
  cbv zeta. rewrite !count_build, walk_leaf_files.
  pose proof (walk_length t path) as Hlen.
  split; [|by auto]. destruct t as [dirs files]. rewrite os_walk_eq. simpl. lia.
Qed.

(** C8 without the scope fails: the files below a pruned [".git"] are
    files of the tree whose name ends in [.md] and is not [index.md], and
    they get no Leaf.  Here the tree holds four such files and the
    hierarchy one Leaf. *)
Lemma C8_pruned_files_get_no_leaf :
  markdown_files tree_with_git = 4%nat
  ∧ count_type LEAVE (build_local_hierarchy tree_with_git "root") = 1%nat
  ∧ build_local_hierarchy tree_with_git "root"
    = [new_Page ROOT "" "root/index.md";
       new_Page LEAVE "root/index.md" "root/r.md"]
  ∧ ¬ (∀ (t : tree) (path : string),
         count_type LEAVE (build_local_hierarchy t path) = markdown_files t).
Proof.
  split; [reflexivity|]. split; [by vm_compute|]. split; [by vm_compute|].
  intros H. specialize (H tree_with_git "root").
  vm_compute in H. discriminate H.
Qed.

(** ** The remote phases *)

Section Phases.
Variable env : Env.

Lemma bind_inr {A B} (m : M A) (k : A → M B) (tr tr' : trace) (a : A) :
  m tr = (inr a, tr') → bind m k tr = k a tr'.
Proof. unfold bind. by intros ->. Qed.

Lemma bind_inl {A B} (m : M A) (k : A → M B) (tr tr' : trace) (e : exn) :
  m tr = (inl e, tr') → bind m k tr = (inl e, tr').
Proof. unfold bind. by intros ->. Qed.

Lemma call_eq {X} (o : op X) (tr : trace) :
  call env o tr = (env X tr o, tr ++ [Ev o]).
Proof. done. Qed.

Lemma getitem_Some (m : gmap string PageBlock) (k : string) (v : PageBlock)
    (tr : trace) :
  m !! k = Some v → getitem m k tr = (inr v, tr).
Proof. unfold getitem. by intros ->. Qed.

Lemma getitem_None (m : gmap string PageBlock) (k : string) (tr : trace) :
  m !! k = None → getitem m k tr = (inl (KeyError k), tr).
Proof. unfold getitem. by intros ->. Qed.

(** *** Creation *)

Lemma create_body_spec (url : string) (flat : bool)
    (m : gmap string PageBlock) (root : option PageBlock) (page : Page)
    (tr : trace) (st' : gmap string PageBlock * option PageBlock)
    (tr_end : trace) :
  create_body env url flat (m, root) page tr = (inr st', tr_end)
  ↔ ∃ (parent handle : PageBlock) (tr' : trace),
      (if bool_decide (type page = ROOT) then
         env _ tr NewClient = inr tt
         ∧ env _ (tr ++ [Ev NewClient]) (GetBlock url) = inr (Some parent)
         ∧ tr' = tr ++ [Ev NewClient; Ev (GetBlock url)]
       else if flat then root = Some parent ∧ tr' = tr
       else m !! parent_filename page = Some parent ∧ tr' = tr)
      ∧ env _ tr' (AddNew parent (title page)) = inr handle
      ∧ st' = (<[filename page := handle]> m,
               if bool_decide (type page = ROOT) then Some handle else root)
      ∧ tr_end = tr' ++ [Ev (AddNew parent (title page))].
Proof.
  unfold create_body, get_notion_page, get_notion_client, create_notion_page.
  destruct (bool_decide (type page = ROOT)) eqn:Hroot.
  - unfold bind at 1 2. rewrite call_eq.
    destruct (env unit tr NewClient) as [e|[]] eqn:Hc.
    { split; [done | by intros (? & ? & ? & (? & _) & _)]. }
    rewrite call_eq.
    destruct (env _ (tr ++ [Ev NewClient]) (GetBlock url)) as [e|[parent|]]
      eqn:Hg.
    { split; [done | by intros (? & ? & ? & (_ & ? & _) & _)]. }
    2:{ split; [done | by intros (? & ? & ? & (_ & ? & _) & _)]. }
    unfold bind, ret. rewrite call_eq, <- app_assoc. simpl.
    destruct (env _ _ (AddNew parent (title page))) as [e|handle] eqn:Ha.
    + split; [done|]. intros (p & h & tr' & (_ & Hp & ->) & Hh & _).
      simplify_eq. congruence.
    + split.
      * intros [= <- <-]. exists parent, handle, (tr ++ [Ev NewClient; Ev (GetBlock url)]).
        rewrite <- !app_assoc. simpl. by rewrite Ha.
      * intros (p & h & tr' & (_ & Hp & ->) & Hh & -> & ->).
        simplify_eq. rewrite Ha in Hh. simplify_eq.
        by rewrite <- !app_assoc.
  - destruct flat.
    + unfold bind at 1, ret at 1. destruct root as [r|].
      2:{ split; [done | by intros (? & ? & ? & (? & _) & _)]. }
      unfold bind, ret. rewrite call_eq.
      destruct (env _ tr (AddNew r (title page))) as [e|handle] eqn:Ha.
      * split; [done|]. intros (p & h & tr' & (Hp & ->) & Hh & _).
        simplify_eq. congruence.
      * split.
        -- intros [= <- <-]. exists r, handle, tr. by rewrite Ha.
        -- intros (p & h & tr' & (Hp & ->) & Hh & -> & ->).
           simplify_eq. rewrite Ha in Hh. by simplify_eq.
    + unfold bind at 1 2, getitem.
      destruct (m !! parent_filename page) as [p0|] eqn:Hm.
      2:{ split; [done | by intros (? & ? & ? & (? & _) & _)]. }
      unfold raise, bind, ret. rewrite call_eq.
      destruct (env _ tr (AddNew p0 (title page))) as [e|handle] eqn:Ha.
      * split; [done|]. intros (p & h & tr' & (Hp & ->) & Hh & _).
        simplify_eq. congruence.
      * split.
        -- intros [= <- <-]. exists p0, handle, tr. by rewrite Ha.
        -- intros (p & h & tr' & (Hp & ->) & Hh & -> & ->).
           simplify_eq. rewrite Ha in Hh. by simplify_eq.
Qed.

Lemma create_fold_spec (url : string) (flat : bool) (hierarchy : list Page) :
  ∀ (m : gmap string PageBlock) (root : option PageBlock) (tr : trace)
    (m_end : gmap string PageBlock) (tr_end : trace),
    (∃ root_end,
       for_fold (create_body env url flat) hierarchy (m, root) tr
       = (inr (m_end, root_end), tr_end))
    ↔ created_as_specified env url flat hierarchy m root tr m_end tr_end.
Proof.
  induction hierarchy as [|page rest IH]; intros m root tr m_end tr_end.
  - simpl. unfold ret. split.
    + intros [r [= -> ->]]. done.
    + intros [-> ->]. by exists root.
  - cbn [for_fold created_as_specified]. split.
    + intros [root_end Hrun]. unfold bind in Hrun.
      destruct (create_body env url flat (m, root) page tr)
        as [[e|[m1 root1]] tr1] eqn:Hbody; [done|].
      apply create_body_spec in Hbody
        as (parent & handle & tr' & Hparent & Hanswer & [= -> ->] & ->).
      exists parent, handle, tr'. split; [done|]. split; [done|].
      apply IH. by exists root_end.
    + intros (parent & handle & tr' & Hparent & Hanswer & Hrest).
      apply IH in Hrest as [root_end Hrest]. exists root_end.
      erewrite bind_inr; [exact Hrest|].
      apply create_body_spec. exists parent, handle, tr'. done.
Qed.

(** *** Moves *)

Lemma elem_of_rev {A} (x : A) (l : list A) : x ∈ rev l ↔ x ∈ l.
Proof. rewrite !list_elem_of_In. symmetry. apply in_rev. Qed.

Lemma for_each_app {A} (body : A → M unit) (a b : list A) (tr : trace) :
  for_each body (a ++ b) tr
  = bind (for_each body a) (fun _ => for_each body b) tr.
Proof.
  revert tr. induction a as [|x a IH]; intros tr; [reflexivity|].
  cbn [app for_each]. unfold bind.
  destruct (body x tr) as [[e|[]] tr1]; [reflexivity|]. by rewrite IH.
Qed.

Lemma move_body_root (m : gmap string PageBlock) (page : Page) (tr : trace) :
  type page = ROOT → move_body env m page tr = (inr tt, tr).
Proof.
  intros H. unfold move_body. by rewrite bool_decide_eq_true_2.
Qed.

Lemma move_body_entries (m : gmap string PageBlock) (page : Page)
    (n p : PageBlock) (tr : trace) :
  type page ≠ ROOT →
  m !! parent_filename page = Some p → m !! filename page = Some n →
  move_body env m page tr
  = (env unit tr (MoveTo n p), tr ++ [Ev (MoveTo n p)]).
Proof.
  intros H Hp Hn. unfold move_body. rewrite bool_decide_eq_false_2 by done.
  rewrite (bind_inr _ _ _ _ _ (getitem_Some _ _ _ tr Hp)).
  by rewrite (bind_inr _ _ _ _ _ (getitem_Some _ _ _ tr Hn)).
Qed.

Lemma move_body_lacks (m : gmap string PageBlock) (page : Page) (tr : trace) :
  type page ≠ ROOT → ¬ has_entries m page →
  ∃ k, move_body env m page tr = (inl (KeyError k), tr) ∧ m !! k = None
       ∧ (k = parent_filename page ∨ k = filename page).
Proof.
  intros H Hno. unfold move_body. rewrite bool_decide_eq_false_2 by done.
  destruct (m !! parent_filename page) as [p|] eqn:Hp.
  - rewrite (bind_inr _ _ _ _ _ (getitem_Some _ _ _ tr Hp)).
    destruct (m !! filename page) as [n|] eqn:Hn.
    + destruct Hno. unfold has_entries. rewrite Hp, Hn. eauto.
    + exists (filename page).
      rewrite (bind_inl _ _ _ _ _ (getitem_None _ _ tr Hn)). eauto.
  - exists (parent_filename page).
    rewrite (bind_inl _ _ _ _ _ (getitem_None _ _ tr Hp)). eauto.
Qed.

Lemma has_entries_dec (m : gmap string PageBlock) (page : Page) :
  has_entries m page ∨ no_entry m page.
Proof.
  unfold has_entries, no_entry.
  destruct (m !! parent_filename page), (m !! filename page); eauto.
Qed.

Lemma no_entry_not_has (m : gmap string PageBlock) (page : Page) :
  no_entry m page → ¬ has_entries m page.
Proof. by intros [H|H] [[? ?] [? ?]]; simplify_eq. Qed.

(** With every entry there, the loop issues the moves and nothing else. *)
Lemma moves_run (m : gmap string PageBlock) (l : list Page) :
  moves_succeed env →
  Forall (fun page => type page ≠ ROOT → has_entries m page) l →
  ∀ tr, ∃ evs,
    for_each (move_body env m) l tr = (inr tt, tr ++ evs)
    ∧ Forall2 (is_move_of m) (filter (fun page => type page ≠ ROOT) l) evs.
Proof.
  intros Henv. induction 1 as [|page l Hpage Hl IH]; intros tr.
  - exists []. simpl. unfold ret. by rewrite app_nil_r.
  - cbn [for_each]. rewrite filter_cons.
    destruct (decide (type page ≠ ROOT)) as [Hne|Heq].
    + destruct (Hpage Hne) as [[p Hp] [n Hn]].
      destruct (IH (tr ++ [Ev (MoveTo n p)])) as (evs & Hrun & Hevs).
      exists (Ev (MoveTo n p) :: evs).
      erewrite bind_inr;
        [|rewrite (move_body_entries _ _ n p) by done; by rewrite Henv].
      rewrite Hrun, <- app_assoc. split; [done|].
      constructor; [|done]. by exists n, p.
    + assert (type page = ROOT) as Hroot.
      { destruct (decide (type page = ROOT)); [done | by destruct Heq]. }
      destruct (IH tr) as (evs & Hrun & Hevs). exists evs.
      by erewrite bind_inr; [|by apply move_body_root].
Qed.

(** With an entry missing, the loop stops at the first descriptor that
    lacks one, on the [KeyError] of the lookup. *)
Lemma moves_stop (m : gmap string PageBlock) (l : list Page) :
  moves_succeed env →
  Exists (fun page => type page ≠ ROOT ∧ no_entry m page) l →
  ∀ tr, ∃ k tr',
    for_each (move_body env m) l tr = (inl (KeyError k), tr')
    ∧ m !! k = None.
Proof.
  intros Henv. induction l as [|page l IH]; intros Hex tr.
  { by apply Exists_nil in Hex. }
  cbn [for_each].
  destruct (decide (type page = ROOT)) as [Hroot|Hne].
  { apply Exists_cons in Hex as [[Hne _]|Hex]; [done|].
    erewrite bind_inr; [|by apply move_body_root]. by apply IH. }
  destruct (has_entries_dec m page) as [[[p Hp] [n Hn]]|Hno].
  - apply Exists_cons in Hex as [[_ Hno]|Hex].
    { destruct (no_entry_not_has _ _ Hno). split; eauto. }
    erewrite bind_inr;
      [|rewrite (move_body_entries _ _ n p) by done; by rewrite Henv].
    by apply IH.
  - destruct (move_body_lacks m page tr Hne (no_entry_not_has _ _ Hno))
      as (k & Hk & Hnone & _).
    exists k, tr. by erewrite bind_inl.
Qed.

(** Whatever the service does, an entry missing makes the phase raise. *)
Lemma moves_never_skip (m : gmap string PageBlock) (l : list Page) :
  Exists (fun page => type page ≠ ROOT ∧ no_entry m page) l →
  ∀ tr, ∃ e tr', for_each (move_body env m) l tr = (inl e, tr').
Proof.
  induction l as [|page l IH]; intros Hex tr.
  { by apply Exists_nil in Hex. }
  cbn [for_each]. unfold bind.
  destruct (move_body env m page tr) as [[e|[]] tr1] eqn:Hbody; [eauto|].
  apply IH. apply Exists_cons in Hex as [[Hne Hno]|Hex]; [|done].
  destruct (move_body_lacks m page tr Hne (no_entry_not_has _ _ Hno))
    as (k & Hk & _).
  congruence.
Qed.

(** *** Content upload *)

Lemma try_IOError_inr {A} (m h : M A) (tr tr' : trace) (a : A) :
  m tr = (inr a, tr') → try_IOError m h tr = (inr a, tr').
Proof. unfold try_IOError. by intros ->. Qed.

Lemma try_IOError_io {A} (m h : M A) (tr tr' : trace) :
  m tr = (inl IOError, tr') → try_IOError m h tr = h tr'.
Proof. unfold try_IOError. by intros ->. Qed.

Lemma try_IOError_other {A} (m h : M A) (tr tr' : trace) (e : exn) :
  m tr = (inl e, tr') → is_IOError e = false →
  try_IOError m h tr = (inl e, tr').
Proof. unfold try_IOError. by intros -> ->. Qed.

End Phases.

(** ** Claims about the remote phases *)

(** C2: a run of [create_notion_hierarchy] returns a mapping exactly when
    every descriptor, in order, was created as the specification
    describes: the Root under the page of the root parent URL; with
    [flat], any other descriptor under the handle of the Root already
    created; without, under the handle the mapping holds for its
    [parent_filename]; each under its title, the handle returned recorded
    under its [filename]. *)
Theorem C2_created_as_specified (env : Env) (root_parent_url : string)
    (hierarchy : list Page) (flat : bool) (tr : trace)
    (m_end : gmap string PageBlock) (tr_end : trace) :
  create_notion_hierarchy env root_parent_url hierarchy flat tr
  = (inr m_end, tr_end)
  ↔ created_as_specified env root_parent_url flat hierarchy ∅ None tr
      m_end tr_end.
Proof.
  rewrite <- create_fold_spec. unfold create_notion_hierarchy, create_loop, bind.
  destruct (for_fold _ hierarchy (∅, None) tr) as [[e|[m1 root1]] tr1].
  - split; [done | by intros [? ?]].
  - unfold ret. simpl. split.
    + intros [= -> ->]. by exists root1.
    + by intros [r [= -> -> ->]].
Qed.

(** Flat and nested creation of [root > a > a/b.md]: flat, every page
    below the Root is created under the handle of the Root. *)
Example create_flat_and_nested :
  snd (create_notion_hierarchy env_ok "URL" sample_hierarchy true [])
  = [Ev NewClient; Ev (GetBlock "URL");
     Ev (AddNew (mkPageBlock "URL") "root");
     Ev (AddNew (mkPageBlock "URL>root") "a");
     Ev (AddNew (mkPageBlock "URL>root") "b.md")]
  ∧ snd (create_notion_hierarchy env_ok "URL" sample_hierarchy false [])
    = [Ev NewClient; Ev (GetBlock "URL");
       Ev (AddNew (mkPageBlock "URL") "root");
       Ev (AddNew (mkPageBlock "URL>root") "a");
       Ev (AddNew (mkPageBlock "URL>root>a") "b.md")]
  ∧ fst (create_notion_hierarchy env_ok "URL" sample_hierarchy true [])
    = inr (<["root/index.md" := mkPageBlock "URL>root"]>
             (<["root/a/index.md" := mkPageBlock "URL>root>a"]>
                (<["root/a/b.md" := mkPageBlock "URL>root>b.md"]> ∅))).
Proof. by vm_compute. Qed.

(** C3: with a complete mapping, and a service that carries out the
    moves, the move phase issues one move for each descriptor that is not
    the Root, of its page under the page of its parent, in the reverse of
    the order of the hierarchy, and nothing else. *)
Theorem C3_moves_in_reverse (env : Env) (hierarchy : list Page)
    (m : gmap string PageBlock) (tr : trace) :
  complete m hierarchy → moves_succeed env →
  ∃ evs,
    move_pages_notion_hierarchy env hierarchy m tr = (inr tt, tr ++ evs)
    ∧ moves_in_reverse m hierarchy evs.
Proof.
  intros Hc Henv. apply (moves_run env m (rev hierarchy) Henv).
  unfold complete in Hc. rewrite Forall_forall in Hc |- *.
  intros page Hin. apply Hc. by apply elem_of_rev.
Qed.

(** For [root > a > a/b.md]: the page of [a/b.md] is moved first, then the
    page of [a]; the Root comes last and is not moved. *)
Lemma C3_moves_in_reverse_witness :
  ∃ evs,
    move_pages_notion_hierarchy env_ok sample_hierarchy sample_mapping []
    = (inr tt, [] ++ evs)
    ∧ moves_in_reverse sample_mapping sample_hierarchy evs.
Proof.
  apply (C3_moves_in_reverse env_ok).
  - unfold complete, sample_hierarchy.
    repeat apply Forall_cons_2; try apply Forall_nil_2; intros Hne;
      first [ by destruct Hne | split; eexists; by vm_compute ].
  - by intros tr page parent.
Defined.

Example sample_hierarchy_built :
  build_local_hierarchy sample_tree "root" = sample_hierarchy.
Proof. by vm_compute. Qed.

Example moves_of_sample :
  move_pages_notion_hierarchy env_ok
    (build_local_hierarchy sample_tree "root") sample_mapping []
  = (inr tt, [Ev (MoveTo (mkPageBlock "B") (mkPageBlock "A"));
              Ev (MoveTo (mkPageBlock "A") (mkPageBlock "R"))]).
Proof. by vm_compute. Qed.

(** C4: with a service that carries out the moves, the move phase raises
    exactly when some descriptor that is not the Root lacks the entry of
    its parent or its own; what it raises is the [KeyError] of a key the
    mapping does not have; and with every entry there it returns. *)
Theorem C4_missing_entry_raises (env : Env) (hierarchy : list Page)
    (m : gmap string PageBlock) (tr : trace) :
  moves_succeed env →
  ((∃ e, fst (move_pages_notion_hierarchy env hierarchy m tr) = inl e)
   ↔ lacks_entry m hierarchy)
  ∧ (∀ e, fst (move_pages_notion_hierarchy env hierarchy m tr) = inl e →
          ∃ k, e = KeyError k ∧ m !! k = None)
  ∧ (¬ lacks_entry m hierarchy →
     fst (move_pages_notion_hierarchy env hierarchy m tr) = inr tt).
Proof.
  intros Henv. unfold move_pages_notion_hierarchy.
  assert (lacks_entry m hierarchy
          ↔ Exists (fun page => type page ≠ ROOT ∧ no_entry m page)
              (rev hierarchy)) as Hrev.
  { unfold lacks_entry. rewrite !Exists_exists.
    split; intros (page & Hin & H); exists page; split; try done;
      by apply elem_of_rev. }
  assert (¬ lacks_entry m hierarchy →
          fst (for_each (move_body env m) (rev hierarchy) tr) = inr tt) as Hok.
  { intros Hno.
    destruct (moves_run env m (rev hierarchy) Henv) with (tr := tr)
      as (evs & -> & _); [|done].
    apply Forall_forall. intros page Hin Hne.
    destruct (has_entries_dec m page) as [?|Hlack]; [done|].
    destruct Hno. apply Hrev, Exists_exists. by exists page. }
  assert (lacks_entry m hierarchy →
          ∃ k, fst (for_each (move_body env m) (rev hierarchy) tr)
               = inl (KeyError k) ∧ m !! k = None) as Hbad.
  { intros Hlack%Hrev.
    destruct (moves_stop env m _ Henv Hlack tr) as (k & tr' & -> & Hk).
    by exists k. }
  assert (lacks_entry m hierarchy ∨ ¬ lacks_entry m hierarchy) as Hdec.
  { unfold lacks_entry.
    destruct (decide (Exists (fun page => type page ≠ ROOT
       ∧ (is_Some (m !! parent_filename page) ∧ is_Some (m !! filename page)
          → False)) hierarchy)) as [H|H].
    - left. eapply Exists_impl; [exact H|]. intros page [Hne Hno].
      split; [done|]. destruct (has_entries_dec m page) as [?|?]; [|done].
      by destruct Hno.
    - right. intros H'. apply H. eapply Exists_impl; [exact H'|].
      intros page [Hne Hno]. split; [done|]. by apply no_entry_not_has. }
  split; [|split]; [|..|done].
  - split.
    + intros [e He]. destruct Hdec as [?|Hno]; [done|].
      rewrite (Hok Hno) in He. done.
    + intros Hlack. destruct (Hbad Hlack) as (k & -> & _). eauto.
  - intros e He. destruct Hdec as [Hlack|Hno].
    + destruct (Hbad Hlack) as (k & Hk & Hnone). exists k.
      rewrite Hk in He. by simplify_eq.
    + rewrite (Hok Hno) in He. done.
Qed.

Lemma C4_missing_entry_raises_witness :
  ∃ e, fst (move_pages_notion_hierarchy env_ok sample_hierarchy
              broken_mapping []) = inl e.
Proof.
  apply (C4_missing_entry_raises env_ok sample_hierarchy broken_mapping []).
  - by intros tr page parent.
  - unfold lacks_entry, sample_hierarchy.
    apply Exists_cons_tl, Exists_cons_hd. split; [done|]. by right.
Defined.

(** The entry of [a] missing: the move of [a/b.md] under [a] raises, and
    no move is issued. *)
Example moves_with_missing_entry :
  move_pages_notion_hierarchy env_ok sample_hierarchy broken_mapping []
  = (inl (KeyError "root/a/index.md"), []).
Proof. by vm_compute. Qed.

(** C9, on the import: once the client is there, an import that succeeds
    is followed by the title being set again; an import that raises an
    I/O error is retried once, on a new scratch file that nothing was
    written to; the retry succeeding, the title is set again; the retry
    raising, its error is the outcome and nothing more is issued. *)
Theorem C9_import_retried_once (env : Env) (notion_page : PageBlock)
    (page : Page) (filename : string) (tr : trace) :
  let tr1 := tr ++ [Ev NewClient] in
  let tr2 := tr1 ++ [Ev (ImportFile filename notion_page)] in
  let set_title := SetTitle notion_page (title page) in
  env unit tr NewClient = inr tt →
  (env unit tr1 (ImportFile filename notion_page) = inr tt →
   export_notion_page env notion_page page filename tr
   = (env unit tr2 set_title, tr2 ++ [Ev set_title]))
  ∧ (env unit tr1 (ImportFile filename notion_page) = inl IOError →
     ∀ f, env string tr2 NewScratch = inr f →
       let tr3 := tr2 ++ [Ev NewScratch] in
       let tr4 := tr3 ++ [Ev (ImportFile f notion_page)] in
       (env unit tr3 (ImportFile f notion_page) = inr tt →
        export_notion_page env notion_page page filename tr
        = (env unit tr4 set_title, tr4 ++ [Ev set_title]))
       ∧ (∀ e, env unit tr3 (ImportFile f notion_page) = inl e →
          export_notion_page env notion_page page filename tr
          = (inl e, tr4))).
Proof.
  intros tr1 tr2 set_title Hclient.
  unfold export_notion_page, get_notion_client.
  rewrite (bind_inr _ _ tr tr1 tt) by (by rewrite call_eq, Hclient).
  split.
  - intros Himport.
    rewrite (bind_inr _ _ tr1 tr2 tt); [done|].
    apply try_IOError_inr. by rewrite call_eq, Himport.
  - intros Himport f Hscratch.
    set (tr3 := tr2 ++ [Ev NewScratch]).
    set (tr4 := tr3 ++ [Ev (ImportFile f notion_page)]).
    assert (∀ r, env unit tr3 (ImportFile f notion_page) = r →
      try_IOError (call env (ImportFile filename notion_page))
        (bind (call env NewScratch)
           (fun f => call env (ImportFile f notion_page))) tr1
      = (r, tr4)) as Hretry.
    { intros r Hr.
      rewrite (try_IOError_io _ _ tr1 tr2) by (by rewrite call_eq, Himport).
      rewrite (bind_inr _ _ tr2 tr3 f) by (by rewrite call_eq, Hscratch).
      by rewrite call_eq, Hr. }
    split.
    + intros Hok. by rewrite (bind_inr _ _ tr1 tr4 tt) by (by apply Hretry).
    + intros e He. by rewrite (bind_inl _ _ tr1 tr4 e) by (by apply Hretry).
Qed.

Lemma C9_import_retried_once_witness :
  let page := new_Page LEAVE "root/a/index.md" "root/a/b.md" in
  let b := mkPageBlock "B" in
  export_notion_page env_ok b page "scratch" []
  = (inr tt, [Ev NewClient; Ev (ImportFile "scratch" b);
              Ev (SetTitle b "b.md")])
  ∧ export_notion_page env_first_import_fails b page "scratch" []
    = (inr tt, [Ev NewClient; Ev (ImportFile "scratch" b); Ev NewScratch;
                Ev (ImportFile "scratch++" b); Ev (SetTitle b "b.md")])
  ∧ export_notion_page env_import_fails b page "scratch" []
    = (inl IOError, [Ev NewClient; Ev (ImportFile "scratch" b);
                     Ev NewScratch; Ev (ImportFile "scratch++" b)]).
Proof.
  cbv zeta. split; [|split].
  - destruct (C9_import_retried_once env_ok (mkPageBlock "B")
                (new_Page LEAVE "root/a/index.md" "root/a/b.md") "scratch" []
                eq_refl) as [Hok _].
    rewrite (Hok eq_refl). reflexivity.
  - destruct (C9_import_retried_once env_first_import_fails (mkPageBlock "B")
                (new_Page LEAVE "root/a/index.md" "root/a/b.md") "scratch" []
                eq_refl) as [_ Hretry].
    destruct (Hretry eq_refl "scratch++" eq_refl) as [Hok _].
    rewrite (Hok eq_refl). reflexivity.
  - destruct (C9_import_retried_once env_import_fails (mkPageBlock "B")
                (new_Page LEAVE "root/a/index.md" "root/a/b.md") "scratch" []
                eq_refl) as [_ Hretry].
    destruct (Hretry eq_refl "scratch++" eq_refl) as [_ Hfail].
    rewrite (Hfail IOError eq_refl). reflexivity.
Defined.

(** An error of the write of the scratch file is the outcome of the
    upload of the page: the write is outside the [try] of the import, and
    no import follows. *)
Lemma scratch_write_error_propagates (get_browseable_url : PageBlock → string)
    (urlparse_path unquote : string → string) (env : Env)
    (m : gmap string PageBlock) (dir : string) (roots : list string)
    (page : Page) (tr : trace) (text tmp_f : string) (e : exn) :
  let tr1 := tr ++ [Ev (ReadFile (filename page))] in
  let tr2 := tr1 ++ [Ev NewScratch] in
  let content := rewrite_links get_browseable_url urlparse_path unquote
                   page m dir roots text in
  type page ≠ ROOT →
  env string tr (ReadFile (filename page)) = inr text →
  env string tr1 NewScratch = inr tmp_f →
  env unit tr2 (WriteScratch tmp_f content) = inl e →
  update_link_body get_browseable_url urlparse_path unquote env m dir roots
    page tr
  = (inl e, tr2 ++ [Ev (WriteScratch tmp_f content)]).
Proof.
  intros tr1 tr2 content Hne Hread Hscratch Hwrite. subst content.
  unfold update_link_body. rewrite bool_decide_eq_false_2 by done.
  rewrite (bind_inr _ _ tr tr1 (Some text)).
  2:{ apply try_IOError_inr.
      by rewrite (bind_inr _ _ tr tr1 text) by (by rewrite call_eq, Hread). }
  rewrite (bind_inr _ _ tr1 tr2 tmp_f) by (by rewrite call_eq, Hscratch).
  erewrite (bind_inl _ _ tr2 _ e); [done|]. by rewrite call_eq, Hwrite.
Qed.

(** C9 as stated fails on the write: when writing the scratch file raises
    an I/O error, the upload of the page ends in that error; no import is
    issued, neither the original nor a retry. *)
Lemma C9_write_error_not_retried :
  let page := new_Page LEAVE "root/a/index.md" "root/a/b.md" in
  let run :=
    update_link_body sample_url Urllib.urlparse_path Urllib.unquote
      env_write_fails sample_mapping "root" [] page [] in
  env_write_fails unit [Ev (ReadFile "root/a/b.md"); Ev NewScratch]
    (WriteScratch "scratch+" "See (https://www.notion.so/A)") = inl IOError
  ∧ run = (inl IOError,
           [Ev (ReadFile "root/a/b.md"); Ev NewScratch;
            Ev (WriteScratch "scratch+" "See (https://www.notion.so/A)")])
  ∧ ¬ ∃ e, e ∈ snd run ∧ is_import e = true.
Proof.
  cbv zeta. split; [done|]. split; [by vm_compute|].
  intros (e & Hin & He). vm_compute in Hin.
  repeat (apply elem_of_cons in Hin as [->|Hin]; [done|]).
  by apply elem_of_nil in Hin.
Qed.

(** ** The link resolver *)

Section Resolver.
Import Str Path.

Lemma starts_false_ne (p l : list ascii) :
  starts p l = false → p ≠ [].
Proof. by intros H ->. Qed.






Lemma startswith_spec (s p : string) :
  startswith s p = true ↔ ∃ r, s = p +:+ r.
Proof.
  unfold startswith. rewrite starts_spec. split.
  - intros [r Hr]. exists (l2s r). apply s2l_inj.
    by rewrite s2l_app, s2l_l2s.
  - intros [r ->]. exists (s2l r). apply s2l_app.
Qed.

End Resolver.

(** ** Claims about the link resolver *)

(** C5: in the document [a/index.md], the reference [(./sibling.md)]
    becomes the browseable URL of the entry of [a/sibling.md], in
    parentheses, when the mapping has that key, and stays [(./sibling.md)]
    when it has not. *)
Theorem C5_relative_sibling (get_browseable_url : PageBlock → string)
    (urlparse_path unquote : string → string)
    (ty : PageType) (parent : string) (url : option string)
    (block : option PageBlock) (m : gmap string PageBlock) (dir : string)
    (github_wiki_roots : list string) :
  Path.normpath (Path.join (Path.dirname "a/index.md") "./sibling.md")
  = "a/sibling.md"
  ∧ _resolve_link get_browseable_url urlparse_path unquote "(./sibling.md)"
      (mkPage ty parent "a/index.md" url block) m dir github_wiki_roots
    = match m !! "a/sibling.md" with
      | Some b => "(" +:+ get_browseable_url b +:+ ")"
      | None => "(./sibling.md)"
      end.
Proof.
  split; [by vm_compute|]. unfold _resolve_link.
  change (Str.strip_ends "(./sibling.md)") with "./sibling.md".
  change (Str.startswith "./sibling.md" "./") with true.
  cbn [filename].
  change (Path.normpath _) with "a/sibling.md".
  by destruct (m !! "a/sibling.md").
Qed.



(** [a.md] is a sibling of [docs/guide.md] with a page, yet the bare name
    and the path through the parent directory are not resolved. *)
Example bare_and_parent_references :
  rewrite_guide "[A](a.md) [A](../docs/a.md) [A](./a.md)"
  = "[A](a.md) [A](../docs/a.md) [A](./a.md)"
  ∧ rewrite_guide "[A](a.md)" = "[A](a.md)"
  ∧ rewrite_guide "[A](../docs/a.md)" = "[A](../docs/a.md)"
  ∧ rewrite_guide "[A](./a.md)" = "[A](https://www.notion.so/A)".
Proof. by vm_compute. Qed.




(** C7, on a line with two references: [\(.+\)] matches once, from the
    first opening parenthesis to the last closing one, so the text between
    the two references is part of the match and neither reference is
    resolved, although each of them alone is. *)
Theorem C7_two_references_on_a_line :
  Re.match_here (Str.s2l "(./a.md) and [B](./b.md)")
  = Some (Str.s2l "(./a.md) and [B](./b.md)")
  ∧ rewrite_guide "[A](./a.md) and [B](./b.md)"
    = "[A](./a.md) and [B](./b.md)"
  ∧ rewrite_guide "[A](./a.md)" = "[A](https://www.notion.so/A)"
  ∧ rewrite_guide "[B](./b.md)" = "[B](https://www.notion.so/B)"
  ∧ rewrite_guide "[A](./a.md) and [B](./b.md)"
    ≠ "[A](https://www.notion.so/A) and [B](https://www.notion.so/B)".
Proof. by vm_compute. Qed.

(** * Further properties *)

(** ** The hierarchy builder *)

Section MoreHierarchy.
Import Str Path.

Lemma ends_spec (p l : list ascii) :
  ends p l = true ↔ ∃ a, l = a ++ p.
Proof.
  unfold ends. rewrite starts_spec. split.
  - intros [r Hr]. exists (rev r).
    rewrite <- (rev_involutive l), Hr, rev_app_distr. by rewrite rev_involutive.
  - intros [a ->]. exists (rev a). apply rev_app_distr.
Qed.

Lemma endswith_spec (s p : string) :
  endswith s p = true ↔ ∃ a, s = a +:+ p.
Proof.
  unfold endswith. rewrite ends_spec. split.
  - intros [a Ha]. exists (l2s a). apply s2l_inj. by rewrite s2l_app, s2l_l2s.
  - intros [a ->]. exists (s2l a). apply s2l_app.
Qed.

Lemma string_app_assoc (a b c : string) : (a +:+ b) +:+ c = a +:+ b +:+ c.
Proof. apply s2l_inj. by rewrite !s2l_app, app_assoc. Qed.

(** A joined path ends in what was joined: [join a b] is [b], or [b] right
    after a separator. *)
Lemma join_cases (a b : string) :
  join a b = b ∨ ∃ pre, join a b = pre +:+ "/" +:+ b.
Proof.
  unfold join. destruct (startswith b "/"); [by left|].
  case_bool_decide as Ha.
  { subst a. by left. }
  destruct (endswith a "/") eqn:He; simpl.
  - apply endswith_spec in He as [pre ->]. right. exists pre.
    apply string_app_assoc.
  - right. by exists a.
Qed.

Lemma join_endswith (a b s : string) :
  endswith b s = true → endswith (join a b) s = true.
Proof.
  intros [x ->]%endswith_spec. apply endswith_spec.
  destruct (join_cases a (x +:+ s)) as [->|[pre ->]]; [by exists x|].
  exists (pre +:+ "/" +:+ x). by rewrite !string_app_assoc.
Qed.

Lemma join_index_is_index (a : string) (ty : PageType) (parent : string)
    (u : option string) (b : option PageBlock) :
  is_index (mkPage ty parent (join a "index.md") u b) = true.
Proof.
  unfold is_index. cbn [filename]. apply orb_true_iff.
  destruct (join_cases a "index.md") as [->|[pre ->]].
  - left. by apply bool_decide_eq_true.
  - right. apply endswith_spec. by exists pre.
Qed.

Lemma basename_after_sep (pre : list ascii) (n : string) :
  sep ∉ s2l n → basename (l2s (pre ++ sep :: s2l n)) = n.
Proof.
  intros Hn. unfold basename. rewrite s2l_l2s, (rfind_last _ _ _ Hn).
  unfold from. replace (Z.to_nat (Z.of_nat (length pre) + 1)) with
    (length (pre ++ [sep])) by (rewrite length_app; simpl; lia).
  replace (pre ++ sep :: s2l n) with ((pre ++ [sep]) ++ s2l n)
    by (by rewrite <- app_assoc).
  rewrite drop_app_length. apply l2s_s2l.
Qed.

Lemma basename_no_sep (n : string) : sep ∉ s2l n → basename n = n.
Proof.
  intros Hn. unfold basename. rewrite (rfind_absent _ _ Hn). apply l2s_s2l.
Qed.

(** The last component of the path of an entry is the name of the entry,
    whatever the directory is written like. *)
Lemma basename_join_name (top n : string) :
  name_ok n = true → basename (join top n) = n.
Proof.
  intros Hn. destruct (name_ok_spec _ Hn) as [_ Hsep].
  destruct (join_cases top n) as [->|[pre ->]].
  - by apply basename_no_sep.
  - rewrite <- (l2s_s2l (pre +:+ "/" +:+ n)), !s2l_app.
    by apply (basename_after_sep (s2l pre)).
Qed.

Lemma name_index_md : name_ok "index.md" = true.
Proof. by vm_compute. Qed.

Lemma name_not_index (top f : string) (ty : PageType) (parent : string)
    (u : option string) (b : option PageBlock) :
  name_ok f = true → f ≠ "index.md" →
  is_index (mkPage ty parent (join top f) u b) = false.
Proof.
  intros Hn Hf. unfold is_index. cbn [filename]. apply orb_false_iff. split.
  - apply bool_decide_eq_false. intros He.
    apply Hf. rewrite <- (basename_join_name top f Hn), He. by vm_compute.
  - destruct (endswith (join top f) "/index.md") eqn:He; [|done].
    apply endswith_spec in He as [a Ha]. destruct Hf.
    rewrite <- (basename_join_name top f Hn), Ha.
    rewrite <- (l2s_s2l (a +:+ "/index.md")), s2l_app.
    change (s2l "/index.md") with (sep :: s2l "index.md").
    apply (basename_after_sep (s2l a) "index.md").
    apply (name_ok_spec _ name_index_md).
Qed.

End MoreHierarchy.

(** X1: the title of the index page of the directory [n] is [n], and the
    title of the page of a file [f] other than [index.md] is [f], whatever
    the path of the directory they are in is written like. *)
Theorem titles_are_names (top name : string) (ty : PageType) (parent : string)
    (u : option string) (b : option PageBlock) :
  name_ok name = true →
  title (mkPage ty parent (Path.join (Path.join top name) "index.md") u b)
  = name
  ∧ (name ≠ "index.md" →
     title (mkPage ty parent (Path.join top name) u b) = name).
Proof.
  intros Hn. split.
  - unfold title. rewrite join_index_is_index. cbn [filename].
    rewrite (dirname_join_clean _ "index.md" (join_name_clean top name Hn)
               name_index_md).
    by apply basename_join_name.
  - intros Hf. unfold title. rewrite (name_not_index top name) by done.
    cbn [filename]. by apply basename_join_name.
Qed.

Lemma titles_are_names_witness :
  title (new_Page NODE "root/index.md" "root/a/index.md") = "a"
  ∧ title (new_Page LEAVE "root/index.md" "root/a") = "a".
Proof.
  destruct (titles_are_names "root" "a" NODE "root/index.md" None None eq_refl)
    as [Hnode _].
  destruct (titles_are_names "root" "a" LEAVE "root/index.md" None None eq_refl)
    as [_ Hleaf].
  split; [exact Hnode | apply Hleaf; discriminate].
Defined.

Section MoreWalk.
Import Str Path.

Lemma pages_of_dir_later_kinds e :
  Forall (fun p => type p ≠ ROOT) (pages_of_dir 1 e).
Proof.
  destruct e as [[d ns] fs]. cbn [pages_of_dir].
  rewrite bool_decide_eq_false_2 by done. constructor; [done|].
  apply Forall_flat_map, Forall_forall. intros f _.
  destruct (_ && _); by repeat constructor.
Qed.

Lemma leaves_kinds (index top : string) (files : list string) :
  Forall (fun p => type p ≠ ROOT) (leaves_of index top files).
Proof.
  apply Forall_flat_map, Forall_forall. intros f _.
  destruct (is_leaf_name f); by repeat constructor.
Qed.

(** What holds of the pages of every visited directory holds of the
    hierarchy. *)
Lemma build_Forall (P : Page → Prop) (t : tree) (path : string) :
  (∀ i e, Forall P (pages_of_dir i e)) →
  Forall P (build_local_hierarchy t path).
Proof.
  intros H. unfold build_local_hierarchy.
  apply Forall_flat_map, Forall_forall. intros [i e] _. apply H.
Qed.

Lemma pages_of_dir_names (i : nat) e : Forall markdown_names (pages_of_dir i e).
Proof.
  destruct e as [[d ns] fs]. cbn [pages_of_dir]. constructor.
  - destruct (bool_decide (i = 0%nat)); cbn [markdown_names];
      (split; [by apply join_endswith|]); split; try done.
    intros _. by apply join_endswith.
  - apply Forall_flat_map, Forall_forall. intros f _.
    destruct (negb _ && endswith f ".md") eqn:Hf; [|constructor].
    apply andb_true_iff in Hf as [_ Hmd]. repeat constructor; try done.
    + by apply join_endswith.
    + intros _. by apply join_endswith.
Qed.

Lemma walk_files_ok (t : tree) :
  files_ok t = true →
  ∀ top, Forall (fun e => forallb name_ok (snd e) = true) (os_walk t top).
Proof.
  induction t as [dirs files IH] using tree_ind. intros Hok top.
  cbn [files_ok] in Hok. apply andb_true_iff in Hok as [Hfiles Hdirs].
  rewrite os_walk_eq. constructor; [done|].
  apply Forall_flat_map, remove_git_Forall.
  rewrite forallb_forall in Hdirs. rewrite Forall_forall in IH |- *.
  intros e He. apply (IH e He). apply Hdirs. by apply list_elem_of_In.
Qed.

Lemma pages_of_dir_index (i : nat) e :
  forallb name_ok (snd e) = true →
  Forall (fun p => is_index p = negb (bool_decide (type p = LEAVE)))
    (pages_of_dir i e).
Proof.
  destruct e as [[d ns] fs]. cbn [snd pages_of_dir]. intros Hok. constructor.
  - destruct (bool_decide (i = 0%nat)); unfold new_Page;
      by rewrite join_index_is_index.
  - apply Forall_flat_map, Forall_forall. intros f Hin.
    rewrite forallb_forall in Hok.
    destruct (negb _ && endswith f ".md") eqn:Hf; [|constructor].
    apply andb_true_iff in Hf as [Hne _].
    apply negb_true_iff, bool_decide_eq_false in Hne.
    repeat constructor. unfold new_Page.
    rewrite name_not_index; [done| |done]. apply Hok. by apply list_elem_of_In.
Qed.

Lemma remove_empty_git {A} (d : A) (l : list (string * A)) :
  remove_git (empty_git d l) = remove_git l.
Proof.
  induction l as [|[n a] l IH]; simpl; [done|].
  case_bool_decide as Hn; simpl.
  - by rewrite bool_decide_eq_true_2.
  - by rewrite bool_decide_eq_false_2, IH.
Qed.

Lemma names_empty_git {A} (d : A) (l : list (string * A)) :
  map fst (empty_git d l) = map fst l.
Proof.
  induction l as [|[n a] l IH]; simpl; [done|].
  case_bool_decide; simpl; [done | by rewrite IH].
Qed.

Lemma walk_forget_git (t : tree) :
  ∀ top, os_walk (forget_git t) top = os_walk t top.
Proof.
  induction t as [dirs files IH] using tree_ind. intros top.
  cbn [forget_git]. rewrite !os_walk_eq.
  rewrite names_empty_git, map_fst_map, remove_empty_git,
    (remove_git_map forget_git).
  f_equal. rewrite flat_map_concat_map, map_map, <- flat_map_concat_map.
  apply flat_map_Forall_ext, remove_git_Forall.
  rewrite Forall_forall in IH |- *. intros e He. apply (IH e He).
Qed.

End MoreWalk.

Lemma build_root_first (t : tree) (path : string) :
  ∃ rest,
    build_local_hierarchy t path
    = new_Page ROOT "" (Path.join path "index.md") :: rest
    ∧ Forall (fun p => type p ≠ ROOT) rest.
Proof.
  destruct t as [dirs files]. rewrite build_eq. eexists. split; [done|].
  apply Forall_app. split; [apply leaves_kinds|].
  apply Forall_flat_map, Forall_forall. intros e _.
  apply Forall_flat_map, Forall_forall. intros w _.
  apply pages_of_dir_later_kinds.
Qed.

(** X2: every hierarchy begins with the Root, the page of
    [<path>/index.md] with no parent, and no other descriptor is a Root. *)
Theorem root_comes_first (t : tree) (path : string) :
  ∃ rest,
    build_local_hierarchy t path
    = new_Page ROOT "" (Path.join path "index.md") :: rest
    ∧ Forall (fun p => type p ≠ ROOT) rest.
Proof. apply build_root_first. Qed.

(** X3: in every hierarchy, every filename ends in [.md]; the Root names
    no parent, and every other descriptor names a parent that ends in
    [index.md]. *)
Theorem descriptors_are_markdown (t : tree) (path : string) :
  Forall
    (fun p =>
       Str.endswith (filename p) ".md" = true
       ∧ (type p = ROOT → parent_filename p = "")
       ∧ (type p ≠ ROOT → Str.endswith (parent_filename p) "index.md" = true))
    (build_local_hierarchy t path).
Proof. apply build_Forall, pages_of_dir_names. Qed.

(** X4: where the files have names, a descriptor of the hierarchy is an
    index page exactly when it is not a Leaf. *)
Theorem index_pages_are_not_leaves (t : tree) (path : string) :
  files_ok t = true →
  Forall (fun p => is_index p = negb (bool_decide (type p = LEAVE)))
    (build_local_hierarchy t path).
Proof.
  intros Hok. unfold build_local_hierarchy.
  apply Forall_flat_map, Forall_forall. intros [i e] Hin.
  apply pages_of_dir_index. cbn [snd].
  pose proof (walk_files_ok t Hok path) as Hw. rewrite Forall_forall in Hw.
  apply Hw. clear -Hin. revert Hin. generalize 0%nat.
  induction (os_walk t path) as [|x w IH]; intros k Hin.
  { by apply elem_of_nil in Hin. }
  cbn [enumerate_from] in Hin.
  apply elem_of_cons in Hin as [[= _ <-]|Hin]; [left|].
  right. by apply (IH (S k)).
Qed.

Lemma index_pages_are_not_leaves_witness :
  Forall (fun p => is_index p = negb (bool_decide (type p = LEAVE)))
    (build_local_hierarchy sample_tree "root").
Proof. apply index_pages_are_not_leaves. reflexivity. Defined.

(** X5: what is below a pruned [.git] directory, at any depth, has no
    part in the walk nor in the hierarchy. *)
Theorem git_content_is_ignored (t : tree) (path : string) :
  os_walk (forget_git t) path = os_walk t path
  ∧ build_local_hierarchy (forget_git t) path = build_local_hierarchy t path.
Proof.
  split; [apply walk_forget_git|].
  unfold build_local_hierarchy. by rewrite walk_forget_git.
Qed.

Example git_content_forgotten :
  forget_git
    (Dir [(".git", Dir [("hooks", Dir [] ["a.md"])] ["x.md"]);
          ("a", Dir [(".git", Dir [] ["y.md"])] ["b.md"])] ["r.md"])
  = Dir [(".git", Dir [] []); ("a", Dir [(".git", Dir [] [])] ["b.md"])]
      ["r.md"].
Proof. reflexivity. Qed.

(** ** Creation *)

Lemma env_ok_reliable : reliable env_ok.
Proof. split; intros; try done; try (by eexists). by right; eexists. Qed.

Section MoreCreation.
Variable env : Env.
Hypothesis Hrel : reliable env.

Lemma create_body_root (url : string) (flat : bool)
    (m : gmap string PageBlock) (root : option PageBlock) (page : Page)
    (tr : trace) :
  type page = ROOT →
  ∃ h tr',
    create_body env url flat (m, root) page tr
    = (inr (<[filename page := h]> m, Some h), tr').
Proof.
  intros Hroot.
  destruct (rel_block env Hrel (tr ++ [Ev NewClient]) url) as [parent Hp].
  destruct (rel_add env Hrel (tr ++ [Ev NewClient; Ev (GetBlock url)]) parent
              (title page)) as [h Hh].
  exists h, ((tr ++ [Ev NewClient; Ev (GetBlock url)])
             ++ [Ev (AddNew parent (title page))]).
  apply create_body_spec. exists parent, h, (tr ++ [Ev NewClient; Ev (GetBlock url)]).
  rewrite !bool_decide_eq_true_2 by done. split; [|done].
  split; [apply (rel_client env Hrel)|]. done.
Qed.

Lemma create_body_under (url : string) (flat : bool)
    (m : gmap string PageBlock) (root : option PageBlock) (page : Page)
    (tr : trace) (parent : PageBlock) :
  type page ≠ ROOT →
  (if flat then root = Some parent
   else m !! parent_filename page = Some parent) →
  ∃ h,
    create_body env url flat (m, root) page tr
    = (inr (<[filename page := h]> m, root),
       tr ++ [Ev (AddNew parent (title page))]).
Proof.
  intros Hne Hparent.
  destruct (rel_add env Hrel tr parent (title page)) as [h Hh].
  exists h. apply create_body_spec. exists parent, h, tr.
  rewrite !bool_decide_eq_false_2 by done. split; [|done].
  by destruct flat.
Qed.

(** Once the Root is there, flat creation goes through. *)
Lemma create_flat_from_root (url : string) (h : list Page) :
  ∀ m r tr, ∃ m_end root_end tr_end,
    for_fold (create_body env url true) h (m, Some r) tr
    = (inr (m_end, Some root_end), tr_end).
Proof.
  induction h as [|page rest IH]; intros m r tr.
  { by exists m, r, tr. }
  cbn [for_fold]. destruct (decide (type page = ROOT)) as [Hroot|Hne].
  - destruct (create_body_root url true m (Some r) page tr Hroot)
      as (b & tr' & Hbody).
    rewrite (bind_inr _ _ _ _ _ Hbody). apply IH.
  - destruct (create_body_under url true m (Some r) page tr r Hne eq_refl)
      as (b & Hbody).
    rewrite (bind_inr _ _ _ _ _ Hbody). apply IH.
Qed.

Lemma elem_of_seen_insert (seen : list string) (m : gmap string PageBlock)
    (f : string) (b : PageBlock) :
  (∀ k, k ∈ seen ↔ is_Some (m !! k)) →
  ∀ k, k ∈ f :: seen ↔ is_Some (<[f := b]> m !! k).
Proof.
  intros H k. rewrite elem_of_cons, lookup_insert_is_Some', H.
  split; (intros [Hk|Hk]; [by left | by right]).
Qed.

(** Nested creation goes through exactly when every descriptor finds its
    parent among the descriptors before it; otherwise it stops on the
    [KeyError] of a parent that has no entry. *)
Lemma create_nested_run (url : string) (h : list Page) :
  ∀ (seen : list string) m root tr,
    (∀ k, k ∈ seen ↔ is_Some (m !! k)) →
    if parents_known seen h then
      ∃ m_end root_end tr_end,
        for_fold (create_body env url false) h (m, root) tr
        = (inr (m_end, root_end), tr_end)
    else
      ∃ page tr_end,
        page ∈ h ∧ type page ≠ ROOT
        ∧ for_fold (create_body env url false) h (m, root) tr
          = (inl (KeyError (parent_filename page)), tr_end).
Proof.
  induction h as [|page rest IH]; intros seen m root tr Hseen.
  { by exists m, root, tr. }
  cbn [parents_known for_fold].
  destruct (decide (type page = ROOT)) as [Hroot|Hne].
  - rewrite (bool_decide_eq_true_2 _ Hroot). cbn [orb andb].
    destruct (create_body_root url false m root page tr Hroot)
      as (b & tr' & Hbody).
    rewrite (bind_inr _ _ _ _ _ Hbody).
    specialize (IH (filename page :: seen) (<[filename page := b]> m) (Some b)
                  tr' (elem_of_seen_insert _ _ _ _ Hseen)).
    destruct (parents_known (filename page :: seen) rest); [done|].
    destruct IH as (p & tr_end & Hin & Hp & Hrun).
    exists p, tr_end. split; [by right | done].
  - rewrite (bool_decide_eq_false_2 _ Hne). cbn [orb].
    destruct (m !! parent_filename page) as [parent|] eqn:Hparent.
    + rewrite bool_decide_eq_true_2 by (apply Hseen; eauto). cbn [andb].
      destruct (create_body_under url false m root page tr parent Hne Hparent)
        as (b & Hbody).
      rewrite (bind_inr _ _ _ _ _ Hbody).
      specialize (IH (filename page :: seen) (<[filename page := b]> m) root
                    (tr ++ [Ev (AddNew parent (title page))])
                    (elem_of_seen_insert _ _ _ _ Hseen)).
      destruct (parents_known (filename page :: seen) rest); [done|].
      destruct IH as (p & tr_end & Hin & Hp & Hrun).
      exists p, tr_end. split; [by right | done].
    + rewrite bool_decide_eq_false_2.
      2:{ intros Hin%Hseen. rewrite Hparent in Hin. by destruct Hin. }
      cbn [andb]. exists page, tr. split; [left|]. split; [done|].
      apply bind_inl. unfold create_body.
      rewrite bool_decide_eq_false_2 by done.
      apply bind_inl, bind_inl. by apply getitem_None.
Qed.

End MoreCreation.

Lemma created_registered (env : Env) (url : string) (flat : bool)
    (h : list Page) :
  ∀ m root tr m_end tr_end,
    created_as_specified env url flat h m root tr m_end tr_end →
    dom m_end = list_to_set (map filename h) ∪ dom m
    ∧ ∃ evs, tr_end = tr ++ evs
             ∧ length (List.filter is_add_new evs) = length h.
Proof.
  induction h as [|page rest IH]; intros m root tr m_end tr_end Hc.
  - destruct Hc as [-> ->]. split.
    { cbn [map list_to_set]. by rewrite (left_id_L ∅ (∪)). }
    exists []. by rewrite app_nil_r.
  - destruct Hc as (parent & b & tr' & Hparent & Hb & Hrest).
    apply IH in Hrest as [Hdom (evs & -> & Hlen)]. split.
    + rewrite Hdom, dom_insert_L. cbn [map list_to_set].
      rewrite (assoc_L (∪)).
      by rewrite (comm_L (∪) (list_to_set (map filename rest))).
    + assert (∃ pre, tr' = tr ++ pre ∧ List.filter is_add_new pre = [])
        as (pre & -> & Hpre).
      { destruct (bool_decide (type page = ROOT)).
        - destruct Hparent as (_ & _ & ->). by eexists.
        - exists []. rewrite app_nil_r.
          by destruct flat; destruct Hparent as [_ ->]. }
      exists (pre ++ Ev (AddNew parent (title page)) :: evs).
      split; [by rewrite <- !app_assoc|].
      rewrite List.filter_app, Hpre. cbn. by rewrite Hlen.
Qed.

Lemma create_flat_ok (env : Env) (url : string) (page : Page)
    (rest : list Page) (tr : trace) :
  reliable env → type page = ROOT →
  ∃ m_end tr_end,
    create_notion_hierarchy env url (page :: rest) true tr
    = (inr m_end, tr_end).
Proof.
  intros Hrel Hroot.
  unfold create_notion_hierarchy, create_loop. cbn [for_fold].
  destruct (create_body_root env Hrel url true ∅ None page tr Hroot)
    as (b & tr' & Hbody).
  destruct (create_flat_from_root env Hrel url rest
              (<[filename page := b]> ∅) b tr')
    as (m_end & root_end & tr_end & Hrest).
  exists m_end, tr_end.
  rewrite (bind_inr _ _ tr tr_end (m_end, Some root_end)); [reflexivity|].
  by rewrite (bind_inr _ _ _ _ _ Hbody).
Qed.

(** X6: on a reliable service, flat creation goes through exactly when the
    hierarchy is empty or begins with a Root; begun with another
    descriptor, it raises [AttributeError] (the Root's handle is still
    [None]) before anything is asked of the service. *)
Theorem flat_creation_needs_root_first (env : Env) (url : string)
    (h : list Page) (tr : trace) :
  reliable env →
  ((∃ m_end tr_end,
      create_notion_hierarchy env url h true tr = (inr m_end, tr_end))
   ↔ h = [] ∨ ∃ page rest, h = page :: rest ∧ type page = ROOT)
  ∧ (∀ page rest, h = page :: rest → type page ≠ ROOT →
       create_notion_hierarchy env url h true tr = (inl AttributeError, tr)).
Proof.
  intros Hrel.
  assert (∀ page rest, h = page :: rest → type page ≠ ROOT →
    create_notion_hierarchy env url h true tr = (inl AttributeError, tr))
    as Hbad.
  { intros page rest -> Hne.
    unfold create_notion_hierarchy, create_loop. cbn [for_fold].
    apply bind_inl, bind_inl. unfold create_body.
    rewrite bool_decide_eq_false_2 by done. reflexivity. }
  split; [|done]. split.
  - intros (m_end & tr_end & Hrun). destruct h as [|page rest]; [by left|].
    right. exists page, rest. split; [done|].
    destruct (decide (type page = ROOT)) as [?|Hne]; [done|].
    rewrite (Hbad page rest eq_refl Hne) in Hrun. discriminate Hrun.
  - intros [->|(page & rest & -> & Hroot)].
    { exists ∅, tr. reflexivity. }
    by apply create_flat_ok.
Qed.

Lemma flat_creation_needs_root_first_witness :
  (∃ m_end tr_end,
     create_notion_hierarchy env_ok "URL" sample_hierarchy true []
     = (inr m_end, tr_end))
  ∧ create_notion_hierarchy env_ok "URL" (tail sample_hierarchy) true []
    = (inl AttributeError, []).
Proof.
  pose proof env_ok_reliable as Hrel.
  split.
  - apply (flat_creation_needs_root_first env_ok "URL" sample_hierarchy [] Hrel).
    right. by eexists _, _.
  - by apply (flat_creation_needs_root_first env_ok "URL"
                (tail sample_hierarchy) [] Hrel) with
      (new_Page NODE "root/index.md" "root/a/index.md")
      [new_Page LEAVE "root/a/index.md" "root/a/b.md"].
Defined.

(** X7: on a reliable service, nested creation goes through when every
    descriptor that is not a Root names the filename of a descriptor
    before it; otherwise it stops on the [KeyError] of the parent of such
    a descriptor. *)
Theorem nested_creation_needs_parents_first (env : Env) (url : string)
    (h : list Page) (tr : trace) :
  reliable env →
  if parents_known [] h then
    ∃ m_end tr_end,
      create_notion_hierarchy env url h false tr = (inr m_end, tr_end)
  else
    ∃ page tr_end,
      page ∈ h ∧ type page ≠ ROOT
      ∧ create_notion_hierarchy env url h false tr
        = (inl (KeyError (parent_filename page)), tr_end).
Proof.
  intros Hrel.
  pose proof (create_nested_run env Hrel url h [] ∅ None tr) as Hrun.
  unfold create_notion_hierarchy, create_loop.
  destruct (parents_known [] h).
  - destruct Hrun as (m_end & root_end & tr_end & Hrun).
    { intros k. rewrite lookup_empty. split; [by intros ?%elem_of_nil|].
      by intros [? ?]. }
    exists m_end, tr_end. by rewrite (bind_inr _ _ _ _ _ Hrun).
  - destruct Hrun as (page & tr_end & Hin & Hne & Hrun).
    { intros k. rewrite lookup_empty. split; [by intros ?%elem_of_nil|].
      by intros [? ?]. }
    exists page, tr_end. split; [done|]. split; [done|].
    by rewrite (bind_inl _ _ _ _ _ Hrun).
Qed.

Lemma nested_creation_needs_parents_first_witness :
  (∃ m_end tr_end,
     create_notion_hierarchy env_ok "URL" sample_hierarchy false []
     = (inr m_end, tr_end))
  ∧ ∃ page tr_end,
      page ∈ rev sample_hierarchy ∧ type page ≠ ROOT
      ∧ create_notion_hierarchy env_ok "URL" (rev sample_hierarchy) false []
        = (inl (KeyError (parent_filename page)), tr_end).
Proof.
  pose proof env_ok_reliable as Hrel.
  split.
  - apply (nested_creation_needs_parents_first env_ok "URL" sample_hierarchy
             [] Hrel).
  - apply (nested_creation_needs_parents_first env_ok "URL"
             (rev sample_hierarchy) [] Hrel).
Defined.

Lemma create_run_registered (env : Env) (url : string)
    (h : list Page) (flat : bool) (tr : trace)
    (m_end : gmap string PageBlock) (tr_end : trace) :
  create_notion_hierarchy env url h flat tr = (inr m_end, tr_end) →
  dom m_end = list_to_set (map filename h)
  ∧ ∃ evs, tr_end = tr ++ evs
           ∧ length (List.filter is_add_new evs) = length h.
Proof.
  intros Hrun.
  assert (∃ root_end,
    for_fold (create_body env url flat) h (∅, None) tr
    = (inr (m_end, root_end), tr_end)) as Hfold.
  { unfold create_notion_hierarchy, create_loop, bind in Hrun.
    destruct (for_fold _ h (∅, None) tr) as [[e|[m1 r1]] tr1]; [done|].
    unfold ret in Hrun. simpl in Hrun. injection Hrun as <- <-. by exists r1. }
  apply create_fold_spec, created_registered in Hfold as [Hdom Hevs].
  split; [|done]. rewrite Hdom, dom_empty_L. by rewrite (right_id_L ∅ (∪)).
Qed.

(** X8: when creation returns, the mapping has an entry for the filename
    of every descriptor and for nothing else, and the service was asked
    for as many new pages as there are descriptors. *)
Theorem created_pages_are_registered (env : Env) (url : string)
    (h : list Page) (flat : bool) (tr : trace)
    (m_end : gmap string PageBlock) (tr_end : trace) :
  create_notion_hierarchy env url h flat tr = (inr m_end, tr_end) →
  dom m_end = list_to_set (map filename h)
  ∧ ∃ evs, tr_end = tr ++ evs
           ∧ length (List.filter is_add_new evs) = length h.
Proof. apply create_run_registered. Qed.

Lemma created_pages_are_registered_witness :
  ∃ m_end tr_end,
    create_notion_hierarchy env_ok "URL" sample_hierarchy true []
    = (inr m_end, tr_end)
    ∧ dom m_end = list_to_set (map filename sample_hierarchy)
    ∧ ∃ evs, tr_end = [] ++ evs
             ∧ length (List.filter is_add_new evs) = length sample_hierarchy.
Proof.
  eexists _, _. split; [by vm_compute|].
  apply (created_pages_are_registered env_ok "URL" sample_hierarchy true []).
  by vm_compute.
Defined.

(** ** Content upload *)

Section MoreUpload.
Variable get_browseable_url : PageBlock → string.
Variable urlparse_path unquote : string → string.
Variable env : Env.

Lemma read_step (f : string) (tr : trace) :
  try_IOError
    (bind (call env (ReadFile f)) (fun text => ret (Some text)))
    (ret None) tr
  = match env string tr (ReadFile f) with
    | inr text => (inr (Some text), tr ++ [Ev (ReadFile f)])
    | inl e =>
        if is_IOError e then (inr None, tr ++ [Ev (ReadFile f)])
        else (inl e, tr ++ [Ev (ReadFile f)])
    end.
Proof.
  unfold try_IOError, bind. rewrite call_eq.
  by destruct (env string tr (ReadFile f)) as [e|text].
Qed.

(** The upload of one page, up to its export: the source is read, a
    scratch file is made and written, and the handle of the page is
    looked up. *)
Lemma update_body_steps (m : gmap string PageBlock) (dir : string)
    (roots : list string) (page : Page) (tr : trace) (tmp_f : string)
    (notion_page : PageBlock) :
  let answer := env string tr (ReadFile (filename page)) in
  let content :=
    exported_content get_browseable_url urlparse_path unquote page m dir
      roots answer in
  let tr1 := tr ++ [Ev (ReadFile (filename page))] in
  let tr2 := tr1 ++ [Ev NewScratch] in
  type page ≠ ROOT →
  (answer = inl IOError ∨ ∃ text, answer = inr text) →
  env string tr1 NewScratch = inr tmp_f →
  env unit tr2 (WriteScratch tmp_f content) = inr tt →
  m !! filename page = Some notion_page →
  update_link_body get_browseable_url urlparse_path unquote env m dir roots
    page tr
  = export_notion_page env notion_page page tmp_f
      (tr2 ++ [Ev (WriteScratch tmp_f content)]).
Proof.
  intros answer content tr1 tr2 Hne Hread Hscratch Hwrite Hentry.
  unfold update_link_body. rewrite bool_decide_eq_false_2 by done.
  assert (∃ c,
    try_IOError
      (bind (call env (ReadFile (filename page)))
         (fun text => ret (Some text)))
      (ret None) tr = (inr c, tr1)
    ∧ match c with
      | Some text =>
          rewrite_links get_browseable_url urlparse_path unquote
            page m dir roots text
      | None => ""
      end = content) as (c & Hstep & Hc).
  { rewrite read_step. subst content. fold answer.
    destruct Hread as [->|[text ->]]; by eexists. }
  rewrite (bind_inr _ _ tr tr1 c Hstep), Hc.
  rewrite (bind_inr _ _ tr1 tr2 tmp_f) by (by rewrite call_eq, Hscratch).
  rewrite (bind_inr _ _ tr2 (tr2 ++ [Ev (WriteScratch tmp_f content)]) tt)
    by (by rewrite call_eq, Hwrite).
  by rewrite (bind_inr _ _ _ _ _ (getitem_Some _ _ _ _ Hentry)).
Qed.

End MoreUpload.

(** X9: a page whose source cannot be read (an index page that is not on
    disk) is uploaded all the same, from an empty scratch file; an error of
    the reading that is not an I/O error ends the upload at once. *)
Theorem unreadable_source_is_uploaded_empty
    (get_browseable_url : PageBlock → string)
    (urlparse_path unquote : string → string) (env : Env)
    (m : gmap string PageBlock) (dir : string) (roots : list string)
    (page : Page) (tr : trace) :
  let tr1 := tr ++ [Ev (ReadFile (filename page))] in
  let run :=
    update_link_body get_browseable_url urlparse_path unquote env m dir
      roots page tr in
  type page ≠ ROOT →
  (env string tr (ReadFile (filename page)) = inl IOError →
   ∀ tmp_f notion_page,
     env string tr1 NewScratch = inr tmp_f →
     env unit (tr1 ++ [Ev NewScratch]) (WriteScratch tmp_f "") = inr tt →
     m !! filename page = Some notion_page →
     run = export_notion_page env notion_page page tmp_f
             (tr1 ++ [Ev NewScratch; Ev (WriteScratch tmp_f "")]))
  ∧ (∀ e, env string tr (ReadFile (filename page)) = inl e →
          is_IOError e = false → run = (inl e, tr1)).
Proof.
  intros tr1 run Hne. split.
  - intros Hread tmp_f notion_page Hscratch Hwrite Hentry. subst run.
    rewrite (update_body_steps _ _ _ env m dir roots page tr tmp_f notion_page);
      try done.
    + rewrite Hread. cbn [exported_content]. by rewrite <- app_assoc.
    + by left.
    + by rewrite Hread.
  - intros e Hread Hio. subst run. unfold update_link_body.
    rewrite bool_decide_eq_false_2 by done.
    apply bind_inl. by rewrite read_step, Hread, Hio.
Qed.

Lemma unreadable_source_is_uploaded_empty_witness :
  let page := new_Page NODE "root/index.md" "root/a/index.md" in
  update_link_body sample_url Urllib.urlparse_path Urllib.unquote
    env_no_source sample_mapping "root" [] page []
  = (inr tt,
     [Ev (ReadFile "root/a/index.md"); Ev NewScratch;
      Ev (WriteScratch "scratch+" ""); Ev NewClient;
      Ev (ImportFile "scratch+" (mkPageBlock "A"));
      Ev (SetTitle (mkPageBlock "A") "a")])
  ∧ update_link_body sample_url Urllib.urlparse_path Urllib.unquote
      env_read_crashes sample_mapping "root" [] page []
    = (inl Failure, [Ev (ReadFile "root/a/index.md")]).
Proof.
  cbv zeta. split.
  - destruct (unreadable_source_is_uploaded_empty sample_url
                Urllib.urlparse_path Urllib.unquote env_no_source
                sample_mapping "root" []
                (new_Page NODE "root/index.md" "root/a/index.md") [])
      as [Hempty _]; [done|].
    rewrite (Hempty eq_refl "scratch+" (mkPageBlock "A")); reflexivity.
  - destruct (unreadable_source_is_uploaded_empty sample_url
                Urllib.urlparse_path Urllib.unquote env_read_crashes
                sample_mapping "root" []
                (new_Page NODE "root/index.md" "root/a/index.md") [])
      as [_ Hcrash]; [done|].
    apply Hcrash; reflexivity.
Defined.

(** X10: only an I/O error of the import is retried.  An import that
    raises another error ends the export on that error, with no retry;
    and an error of getting the client, I/O error or not, ends it before
    any import. *)
Theorem only_import_io_errors_are_retried (env : Env)
    (notion_page : PageBlock) (page : Page) (filename : string) (tr : trace) :
  let tr1 := tr ++ [Ev NewClient] in
  (∀ e, env unit tr NewClient = inl e →
        export_notion_page env notion_page page filename tr = (inl e, tr1))
  ∧ (∀ e, env unit tr NewClient = inr tt →
          env unit tr1 (ImportFile filename notion_page) = inl e →
          is_IOError e = false →
          export_notion_page env notion_page page filename tr
          = (inl e, tr1 ++ [Ev (ImportFile filename notion_page)]))
  ∧ (∀ e, env unit tr NewClient = inr tt →
          env unit tr1 (ImportFile filename notion_page) = inl IOError →
          env string (tr1 ++ [Ev (ImportFile filename notion_page)]) NewScratch
          = inl e →
          export_notion_page env notion_page page filename tr
          = (inl e, tr1 ++ [Ev (ImportFile filename notion_page); Ev NewScratch])).
Proof.
  intros tr1. unfold export_notion_page, get_notion_client.
  split; [|split].
  - intros e Hclient. apply bind_inl. by rewrite call_eq, Hclient.
  - intros e Hclient Himport Hio.
    rewrite (bind_inr _ _ tr tr1 tt) by (by rewrite call_eq, Hclient).
    apply bind_inl. apply try_IOError_other; [|done].
    by rewrite call_eq, Himport.
  - intros e Hclient Himport Hscratch.
    rewrite (bind_inr _ _ tr tr1 tt) by (by rewrite call_eq, Hclient).
    apply bind_inl.
    rewrite (try_IOError_io _ _ tr1
               (tr1 ++ [Ev (ImportFile filename notion_page)]))
      by (by rewrite call_eq, Himport).
    replace (tr1 ++ [Ev (ImportFile filename notion_page); Ev NewScratch])
      with ((tr1 ++ [Ev (ImportFile filename notion_page)]) ++ [Ev NewScratch])
      by (by rewrite <- app_assoc).
    apply bind_inl. by rewrite call_eq, Hscratch.
Qed.

Lemma only_import_io_errors_are_retried_witness :
  let page := new_Page LEAVE "root/a/index.md" "root/a/b.md" in
  let b := mkPageBlock "B" in
  export_notion_page env_import_crashes b page "scratch" []
  = (inl Failure, [Ev NewClient; Ev (ImportFile "scratch" b)])
  ∧ export_notion_page env_no_client b page "scratch" []
    = (inl IOError, [Ev NewClient]).
Proof.
  cbv zeta. split.
  - destruct (only_import_io_errors_are_retried env_import_crashes
                (mkPageBlock "B")
                (new_Page LEAVE "root/a/index.md" "root/a/b.md") "scratch" [])
      as (_ & Hcrash & _).
    apply (Hcrash Failure); reflexivity.
  - destruct (only_import_io_errors_are_retried env_no_client
                (mkPageBlock "B")
                (new_Page LEAVE "root/a/index.md" "root/a/b.md") "scratch" [])
      as (Hclient & _).
    apply (Hclient IOError); reflexivity.
Defined.

Section MoreRuns.
Variable get_browseable_url : PageBlock → string.
Variable urlparse_path unquote : string → string.
Variable env : Env.




(** Whatever the service answers, the move phase asks it for moves only,
    and for at most one for each descriptor that is not the Root. *)
Lemma moves_only (m : gmap string PageBlock) (l : list Page) :
  ∀ tr, ∃ evs,
    snd (for_each (move_body env m) l tr) = tr ++ evs
    ∧ forallb is_move evs = true
    ∧ (length evs ≤ length (non_roots l))%nat.
Proof.
  induction l as [|page l IH]; intros tr.
  { exists []. cbn. by rewrite app_nil_r. }
  cbn [for_each]. unfold non_roots. rewrite filter_cons.
  destruct (decide (type page ≠ ROOT)) as [Hne|Heq].
  - destruct (has_entries_dec m page) as [[[p Hp] [n Hn]]|Hno].
    + unfold bind. rewrite (move_body_entries env m page n p tr Hne Hp Hn).
      destruct (env unit tr (MoveTo n p)) as [e|[]].
      * exists [Ev (MoveTo n p)]. cbn. split; [done|]. split; [done | lia].
      * destruct (IH (tr ++ [Ev (MoveTo n p)])) as (evs & Hrun & Hmoves & Hlen).
        exists (Ev (MoveTo n p) :: evs). rewrite Hrun, <- app_assoc.
        split; [done|]. cbn. split; [done|]. fold (non_roots l). lia.
    + destruct (move_body_lacks env m page tr Hne (no_entry_not_has _ _ Hno))
        as (k & Hk & _).
      exists []. rewrite (bind_inl _ _ _ _ _ Hk). cbn. rewrite app_nil_r.
      split; [done|]. split; [done | lia].
  - assert (type page = ROOT) as Hroot.
    { destruct (decide (type page = ROOT)); [done | by destruct Heq]. }
    rewrite (bind_inr _ _ _ _ _ (move_body_root env m page tr Hroot)).
    apply IH.
Qed.

Lemma non_roots_rev (l : list Page) :
  length (non_roots (rev l)) = length (non_roots l).
Proof.
  unfold non_roots. induction l as [|p l IH]; [done|].
  cbn [rev]. rewrite filter_app, length_app, IH, !filter_cons.
  destruct (decide (type p ≠ ROOT)); cbn; lia.
Qed.

End MoreRuns.



(** X12: whatever the service answers and whatever the mapping holds, the
    move phase asks the service for moves only, and for no more than one
    for each descriptor that is not the Root. *)
Theorem move_phase_only_moves (env : Env) (hierarchy : list Page)
    (m : gmap string PageBlock) (tr : trace) :
  ∃ evs,
    snd (move_pages_notion_hierarchy env hierarchy m tr) = tr ++ evs
    ∧ forallb is_move evs = true
    ∧ (length evs ≤ length (non_roots hierarchy))%nat.
Proof.
  destruct (moves_only env m (rev hierarchy) tr) as (evs & Hrun & Hm & Hlen).
  exists evs. rewrite non_roots_rev in Hlen. done.
Qed.

(** ** The whole run *)





(** ** Link rewriting *)

Section MoreLinks.
Import Str.

Lemma rfind_found (c : ascii) (l : list ascii) :
  0 <= rfind c l →
  ∃ a b, l = a ++ c :: b ∧ rfind c l = Z.of_nat (length a) ∧ c ∉ b.
Proof.
  induction l as [|x l IH]; simpl; [lia|].
  destruct (0 <=? rfind c l) eqn:E.
  - apply Z.leb_le in E. destruct (IH E) as (a & b & -> & Hj & Hb).
    intros _. exists (x :: a), b. split; [done|]. split; [|done].
    rewrite Hj. cbn [length]. lia.
  - apply Z.leb_gt in E. destruct (ascii_eqb x c) eqn:Hx; [|lia].
    apply ascii_eqb_true in Hx as ->. intros _. exists [], l.
    split; [done|]. split; [done|].
    intros Hin. clear IH.
    assert (0 <= rfind c l); [|lia].
    induction l as [|y l IH]; [by apply elem_of_nil in Hin|].
    simpl in E |- *. destruct (0 <=? rfind c l) eqn:E'.
    + apply Z.leb_le in E'. lia.
    + apply elem_of_cons in Hin as [->|Hin].
      * rewrite ascii_eqb_refl. lia.
      * apply Z.leb_gt in E'. destruct (ascii_eqb y c); [lia|].
        specialize (IH E' Hin). lia.
Qed.

Lemma take_while_split (P : ascii → bool) (l : list ascii) :
  l = Urllib.take_while P l ++ Urllib.drop_while P l
  ∧ Forall (fun x => P x = true) (Urllib.take_while P l)
  ∧ (Urllib.drop_while P l = []
     ∨ ∃ x r, Urllib.drop_while P l = x :: r ∧ P x = false).
Proof.
  induction l as [|x l (Hl & Hall & Hrest)];
    cbn [Urllib.take_while Urllib.drop_while].
  { split; [done|]. split; [constructor | by left]. }
  destruct (P x) eqn:Hx.
  - split; [cbn [app]; by f_equal|]. split; [by constructor | done].
  - split; [done|]. split; [constructor|]. right. by exists x, l.
Qed.

(** The shape of a match of [\(.+\)]: it starts where the scan stands, is a
    parenthesized span with something inside, lies on one line, and is
    followed on its line by no closing parenthesis. *)
Lemma match_here_shape (l m : list ascii) :
  Re.match_here l = Some m →
  ∃ inner line_end rest,
    m = "("%char :: inner ++ [")"%char]
    ∧ inner ≠ []
    ∧ (Re.newline ∉ inner)
    ∧ l = m ++ line_end ++ rest
    ∧ (")"%char ∉ line_end)
    ∧ (Re.newline ∉ line_end)
    ∧ (rest = [] ∨ ∃ r, rest = Re.newline :: r).
Proof.
  unfold Re.match_here. destruct l as [|c rest0]; [done|].
  destruct (ascii_eqb c "(") eqn:Hc; [|done].
  apply ascii_eqb_true in Hc as ->.
  set (P := fun x => negb (ascii_eqb x Re.newline)).
  destruct (take_while_split P rest0) as (Hsplit & Hline & Hrest).
  destruct (1 <=? rfind ")" (Urllib.take_while P rest0)) eqn:Hj; [|done].
  apply Z.leb_le in Hj. intros [= <-].
  destruct (rfind_found ")" (Urllib.take_while P rest0)) as (a & b & Ha & Hr & Hb);
    [lia|].
  assert (∀ x, Forall (fun y => P y = true) x → Re.newline ∉ x) as Hnl.
  { intros x Hx Hin. rewrite Forall_forall in Hx. specialize (Hx _ Hin).
    unfold P in Hx. by rewrite ascii_eqb_refl in Hx. }
  rewrite Ha in Hline. apply Forall_app in Hline as [Hla Hlb].
  apply Forall_cons in Hlb as [_ Hlb].
  exists a, b, (Urllib.drop_while P rest0).
  assert (upto (rfind ")" (Urllib.take_while P rest0) + 1)
            (Urllib.take_while P rest0) = a ++ [")"%char]) as ->.
  { rewrite Hr, Ha. unfold upto.
    replace (Z.to_nat (Z.of_nat (length a) + 1)) with (length (a ++ [")"%char]))
      by (rewrite length_app; simpl; lia).
    replace (a ++ ")"%char :: b) with ((a ++ [")"%char]) ++ b)
      by (by rewrite <- app_assoc).
    apply take_app_length. }
  split; [done|]. split.
  { intros ->. rewrite Hr in Hj. simpl in Hj. lia. }
  split; [by apply Hnl|]. split.
  { rewrite Hsplit at 1. rewrite Ha. cbn [app]. f_equal.
    by rewrite <- !app_assoc. }
  split; [done|]. split; [by apply Hnl|].
  destruct Hrest as [->|(x & r & -> & Hx)]; [by left|]. right. exists r.
  unfold P in Hx. apply negb_false_iff, ascii_eqb_true in Hx. by subst.
Qed.


Lemma sub_go_no_paren (repl : string → string) (l : list ascii) :
  "("%char ∉ l → Re.sub_go repl 0 l = l.
Proof.
  induction l as [|x r IH]; [done|].
  intros [Hx Hr]%not_elem_of_cons. cbn [Re.sub_go Re.match_here].
  rewrite ascii_eqb_ne by congruence. by rewrite (IH Hr).
Qed.



End MoreLinks.

(** X14: a match of the pattern of the link rewriting starts where the
    scan stands and is a parenthesized span with something inside, on one
    line; it is greedy: on the rest of its line there is no closing
    parenthesis left. *)
Theorem match_is_greedy_span_on_one_line (l m : list ascii) :
  Re.match_here l = Some m →
  ∃ inner line_end rest,
    m = "("%char :: inner ++ [")"%char]
    ∧ inner ≠ []
    ∧ (Re.newline ∉ inner)
    ∧ l = m ++ line_end ++ rest
    ∧ (")"%char ∉ line_end)
    ∧ (Re.newline ∉ line_end)
    ∧ (rest = [] ∨ ∃ r, rest = Re.newline :: r).
Proof. apply match_here_shape. Qed.

Lemma match_is_greedy_span_on_one_line_witness :
  ∃ inner line_end rest,
    Str.s2l "(a) b)" = "("%char :: inner ++ [")"%char]
    ∧ inner ≠ []
    ∧ (Re.newline ∉ inner)
    ∧ Str.s2l "(a) b) c d
(e)" = Str.s2l "(a) b)" ++ line_end ++ rest
    ∧ (")"%char ∉ line_end)
    ∧ (Re.newline ∉ line_end)
    ∧ (rest = [] ∨ ∃ r, rest = Re.newline :: r).
Proof.
  apply (match_is_greedy_span_on_one_line (Str.s2l "(a) b) c d
(e)") (Str.s2l "(a) b)")).
  reflexivity.
Defined.



(** X17: a document with no opening parenthesis is left as it is,
    whatever the mapping holds. *)
Theorem no_parenthesis_no_rewriting (get_browseable_url : PageBlock → string)
    (urlparse_path unquote : string → string) (page : Page)
    (m : gmap string PageBlock) (dir : string)
    (github_wiki_roots : list string) (content : string) :
  "("%char ∉ Str.s2l content →
  rewrite_links get_browseable_url urlparse_path unquote page m dir
    github_wiki_roots content
  = content.
Proof.
  intros Hno. unfold rewrite_links, Re.sub.
  rewrite sub_go_no_paren by done. apply l2s_s2l.
Qed.

Lemma no_parenthesis_no_rewriting_witness :
  rewrite_guide "docs/a.md and ./b.md, see [A] and [B]"
  = "docs/a.md and ./b.md, see [A] and [B]".
Proof.
  apply no_parenthesis_no_rewriting.
  apply (proj1 (bool_decide_eq_false _)). reflexivity.
Defined.

Section MoreWiki.
Variable urlparse_path unquote : string → string.



End MoreWiki.



(** ** Filenames are not shared *)

Section Distinct.
Import Str Path.

Lemma join_by_prefix (path r : string) :
  startswith r "/" = false → join path r = join_prefix path +:+ r.
Proof.
  intros Hr. unfold join, join_prefix. rewrite Hr.
  destruct (_ || _); [done|]. by rewrite string_app_assoc.
Qed.

Lemma startswith_app_name (n r : string) :
  name_ok n = true → startswith (n +:+ r) "/" = false.
Proof.
  intros Hn. pose proof (name_ok_no_lead n Hn) as Hlead.
  destruct (name_ok_spec n Hn) as [Hne _].
  unfold startswith in *. rewrite s2l_app.
  destruct (s2l n) as [|c l]; [done|]. exact Hlead.
Qed.

Lemma relnames_eq (dirs : list (string * tree)) (files : list string) :
  relnames (Dir dirs files)
  = "index.md"
      :: List.filter is_leaf_name files
      ++ flat_map (fun e => map (fun r => fst e +:+ "/" +:+ r) (relnames (snd e)))
           (remove_git dirs).
Proof.
  cbn [relnames]. do 2 f_equal.
  rewrite (remove_git_map relnames), flat_map_concat_map, map_map.
  by rewrite <- flat_map_concat_map.
Qed.

Lemma map_flat_map {A B C} (g : B → C) (f : A → list B) (l : list A) :
  map g (flat_map f l) = flat_map (fun x => map g (f x)) l.
Proof.
  induction l as [|x l IH]; [done|]. cbn [flat_map].
  by rewrite map_app, IH.
Qed.

Lemma leaves_filenames (node top : string) (files : list string)
    (g : string → string) :
  (∀ f, f ∈ files → join top f = g f) →
  map filename
    (flat_map
       (fun f =>
          if negb (bool_decide (f = "index.md")) && endswith f ".md"
          then [new_Page LEAVE node (join top f)]
          else [])
       files)
  = map g (List.filter is_leaf_name files).
Proof.
  intros HP. induction files as [|f files IH]; [done|].
  cbn [flat_map List.filter]. rewrite map_app, IH.
  2:{ intros f' Hf'. apply HP. by right. }
  unfold is_leaf_name at 2.
  destruct (negb (bool_decide (f = "index.md")) && endswith f ".md"); [|done].
  cbn [map app filename new_Page]. f_equal. apply HP. left.
Qed.

(** Below a clean path, the filenames are the relative names under it. *)
Lemma walk_filenames (t : tree) :
  ∀ top, wf_tree t = true → files_ok t = true → clean top →
    map filename (flat_map (pages_of_dir 1) (os_walk t top))
    = map (fun r => top +:+ "/" +:+ r) (relnames t).
Proof.
  induction t as [dirs files IH] using tree_ind. intros top Hwf Hok Hc.
  rewrite os_walk_eq, relnames_eq. cbn [flat_map pages_of_dir].
  rewrite bool_decide_eq_false_2 by done.
  cbn [files_ok] in Hok. apply andb_true_iff in Hok as [Hfiles Hdirs].
  cbn [wf_tree] in Hwf. rewrite forallb_forall in Hfiles, Hdirs, Hwf.
  cbn [app map filename new_Page]. rewrite (join_index_clean top Hc). f_equal.
  rewrite !map_app. f_equal.
  - apply (leaves_filenames _ top files). intros f Hf.
    apply (join_clean top f Hc), Hfiles. by apply list_elem_of_In.
  - rewrite flat_map_flat_map, !map_flat_map.
    apply flat_map_Forall_ext, remove_git_Forall.
    rewrite Forall_forall in IH |- *. intros [n sub] Hin.
    pose proof (Hwf _ (proj1 (list_elem_of_In _ _) Hin)) as Hn.
    apply andb_true_iff in Hn as [Hn Hsub]. cbn [fst snd] in *.
    pose proof (IH _ Hin (join top n) Hsub
                  (Hdirs _ (proj1 (list_elem_of_In _ _) Hin))
                  (join_name_clean _ _ Hn)) as E.
    cbn [fst snd] in E. rewrite E, map_map, (join_clean top n Hc Hn).
    apply map_ext. intros r. by rewrite !string_app_assoc.
Qed.

(** From any root path, the filenames are the relative names after what
    [join] puts before a name. *)
Lemma build_filenames (t : tree) (path : string) :
  wf_tree t = true → files_ok t = true →
  map filename (build_local_hierarchy t path)
  = map (fun r => join_prefix path +:+ r) (relnames t).
Proof.
  destruct t as [dirs files]. intros Hwf Hok.
  rewrite build_eq, relnames_eq.
  cbn [files_ok] in Hok. apply andb_true_iff in Hok as [Hfiles Hdirs].
  cbn [wf_tree] in Hwf. rewrite forallb_forall in Hfiles, Hdirs, Hwf.
  cbn [map filename new_Page]. rewrite (join_by_prefix path "index.md") by done.
  f_equal. rewrite !map_app. f_equal.
  - apply (leaves_filenames _ path files). intros f Hf.
    apply join_by_prefix, name_ok_no_lead, Hfiles. by apply list_elem_of_In.
  - rewrite !map_flat_map.
    apply flat_map_Forall_ext, remove_git_Forall.
    rewrite Forall_forall. intros [n sub] Hin.
    pose proof (Hwf _ (proj1 (list_elem_of_In _ _) Hin)) as Hn.
    apply andb_true_iff in Hn as [Hn Hsub]. cbn [fst snd] in *.
    rewrite (walk_filenames sub (join path n) Hsub
               (Hdirs _ (proj1 (list_elem_of_In _ _) Hin))
               (join_name_clean _ _ Hn)).
    rewrite map_map, (join_by_prefix path n (name_ok_no_lead n Hn)).
    apply map_ext. intros r. by rewrite !string_app_assoc.
Qed.

Lemma sep_split_inj (a1 a2 b1 b2 : list ascii) :
  sep ∉ a1 → sep ∉ a2 → a1 ++ sep :: b1 = a2 ++ sep :: b2 →
  a1 = a2 ∧ b1 = b2.
Proof.
  revert a2. induction a1 as [|x a1 IH]; intros [|y a2] H1 H2 E.
  - by injection E as ->.
  - injection E as <- _. destruct H2. left.
  - injection E as -> _. destruct H1. left.
  - injection E as -> E. apply not_elem_of_cons in H1 as [_ H1].
    apply not_elem_of_cons in H2 as [_ H2].
    destruct (IH a2 H1 H2 E) as [-> ->]. done.
Qed.

Lemma prefixed_inj (n1 n2 r1 r2 : string) :
  name_ok n1 = true → name_ok n2 = true →
  n1 +:+ "/" +:+ r1 = n2 +:+ "/" +:+ r2 → n1 = n2 ∧ r1 = r2.
Proof.
  intros [_ H1]%name_ok_spec [_ H2]%name_ok_spec E.
  apply (f_equal s2l) in E. rewrite !s2l_app in E.
  destruct (sep_split_inj _ _ _ _ H1 H2 E) as [Hn Hr].
  split; by apply s2l_inj.
Qed.

Lemma no_sep_not_prefixed (x n r : string) :
  sep ∉ s2l x → x ≠ n +:+ "/" +:+ r.
Proof.
  intros Hx ->. apply Hx. rewrite !s2l_app. apply elem_of_app. right. left.
Qed.

Lemma NoDup_map_inj {A B} (f : A → B) (l : list A) :
  (∀ x y, f x = f y → x = y) → NoDup l → NoDup (map f l).
Proof.
  intros Hf. induction 1 as [|x l Hx Hl IH]; cbn [map]; constructor; [|done].
  intros Hin. apply list_elem_of_In, in_map_iff in Hin as (y & Hy & Hin).
  apply Hf in Hy as ->. by apply Hx, list_elem_of_In.
Qed.

Lemma NoDup_bool_filter {A} (p : A → bool) (l : list A) :
  NoDup l → NoDup (List.filter p l).
Proof.
  induction 1 as [|x l Hx Hl IH]; cbn [List.filter]; [constructor|].
  destruct (p x); [|done]. constructor; [|done].
  intros Hin. apply Hx. by apply list_elem_of_In, filter_In in Hin as [Hin _];
    apply list_elem_of_In.
Qed.

Lemma remove_git_names_NoDup {A} (l : list (string * A)) :
  NoDup (map fst l) → NoDup (map fst (remove_git l)).
Proof.
  induction l as [|[n a] l IH]; [done|]. cbn [map fst remove_git].
  intros [Hn Hl]%NoDup_cons. case_bool_decide; [done|].
  cbn [map fst]. apply NoDup_cons. split; [|by apply IH].
  intros Hin. apply Hn. clear -Hin.
  induction l as [|[n' a'] l IH]; [done|]. cbn [map fst remove_git] in *.
  case_bool_decide; [by right|]. cbn [map fst] in Hin.
  apply elem_of_cons in Hin as [->|Hin]; [left | right; by apply IH].
Qed.

Lemma prefixed_elem (l : list (string * list string)) (x : string) :
  x ∈ flat_map (fun e => map (fun r => fst e +:+ "/" +:+ r) (snd e)) l →
  ∃ n rs r, (n, rs) ∈ l ∧ r ∈ rs ∧ x = n +:+ "/" +:+ r.
Proof.
  intros Hin. apply list_elem_of_In, in_flat_map in Hin as ([n rs] & He & Hin).
  apply in_map_iff in Hin as (r & <- & Hr).
  exists n, rs, r. by rewrite !list_elem_of_In.
Qed.

Lemma NoDup_prefixed (l : list (string * list string)) :
  NoDup (map fst l) →
  Forall (fun e => name_ok (fst e) = true ∧ NoDup (snd e)) l →
  NoDup (flat_map (fun e => map (fun r => fst e +:+ "/" +:+ r) (snd e)) l).
Proof.
  induction l as [|[n rs] l IH]; [constructor|].
  cbn [map fst flat_map snd]. intros [Hn Hl]%NoDup_cons [[Hok Hrs] Hall]%Forall_cons.
  cbn [fst snd] in *. apply NoDup_app. split; [|split; [|by apply IH]].
  - apply NoDup_map_inj; [|done]. intros x y E.
    by apply (inj (String.app n)), (inj (String.app "/")) in E.
  - intros x Hx Hin.
    apply list_elem_of_In, in_map_iff in Hx as (r & <- & _).
    apply prefixed_elem in Hin as (n' & rs' & r' & He & _ & E).
    rewrite Forall_forall in Hall. destruct (Hall _ He) as [Hok' _].
    destruct (prefixed_inj _ _ _ _ Hok Hok' E) as [-> _].
    apply Hn. apply list_elem_of_In, in_map_iff. exists (n', rs').
    split; [done | by apply list_elem_of_In].
Qed.

Lemma relnames_NoDup (t : tree) :
  wf_tree t = true → files_ok t = true → unique_names t = true →
  NoDup (relnames t).
Proof.
  induction t as [dirs files IH] using tree_ind. intros Hwf Hok Huniq.
  rewrite relnames_eq.
  cbn [files_ok] in Hok. apply andb_true_iff in Hok as [Hfiles Hdirs].
  cbn [unique_names] in Huniq.
  apply andb_true_iff in Huniq as [Hu Hsubs].
  apply andb_true_iff in Hu as [Hud Huf].
  apply bool_decide_eq_true in Hud, Huf.
  cbn [wf_tree] in Hwf. rewrite forallb_forall in Hfiles, Hdirs, Hwf, Hsubs.
  set (subs := map (fun e => (fst e, relnames (snd e))) (remove_git dirs)).
  assert (flat_map
            (fun e => map (fun r => fst e +:+ "/" +:+ r) (relnames (snd e)))
            (remove_git dirs)
          = flat_map (fun e => map (fun r => fst e +:+ "/" +:+ r) (snd e)) subs)
    as ->.
  { unfold subs. rewrite !flat_map_concat_map, map_map. done. }
  assert (∀ x, sep ∉ s2l x →
            x ∉ flat_map (fun e => map (fun r => fst e +:+ "/" +:+ r) (snd e))
                  subs) as Hfresh.
  { intros x Hx (n & rs & r & _ & _ & E)%prefixed_elem.
    by apply (no_sep_not_prefixed x n r). }
  apply NoDup_cons. split.
  - intros Hin. apply elem_of_app in Hin as [Hin|Hin].
    + by apply list_elem_of_In, filter_In in Hin as [_ Hleaf].
    + revert Hin. apply Hfresh. apply (name_ok_spec _ name_index_md).
  - apply NoDup_app. split; [by apply NoDup_bool_filter|]. split.
    + intros f Hf. apply Hfresh.
      apply list_elem_of_In, filter_In in Hf as [Hf _].
      apply (name_ok_spec f), Hfiles, Hf.
    + apply NoDup_prefixed.
      * unfold subs. rewrite map_fst_map. by apply remove_git_names_NoDup.
      * unfold subs. apply Forall_forall. intros e He.
        apply list_elem_of_In, in_map_iff in He as ([n sub] & <- & He).
        cbn [fst snd].
        assert ((n, sub) ∈ dirs) as Hin.
        { clear -He. induction dirs as [|[n' a'] l IHl]; [done|].
          cbn [remove_git] in He. case_bool_decide.
          - right. by apply list_elem_of_In.
          - destruct He as [[= -> ->]|He]; [left | right; by apply IHl]. }
        pose proof (Hwf _ (proj1 (list_elem_of_In _ _) Hin)) as Hn.
        apply andb_true_iff in Hn as [Hn Hsub]. cbn [fst snd] in *.
        split; [done|]. rewrite Forall_forall in IH.
        apply (IH _ Hin Hsub).
        -- apply (Hdirs _ (proj1 (list_elem_of_In _ _) Hin)).
        -- apply (Hsubs _ (proj1 (list_elem_of_In _ _) Hin)).
Qed.

Lemma build_filenames_NoDup (t : tree) (path : string) :
  wf_tree t = true → files_ok t = true → unique_names t = true →
  NoDup (map filename (build_local_hierarchy t path)).
Proof.
  intros Hwf Hok Huniq. rewrite build_filenames by done.
  apply NoDup_map_inj; [|by apply relnames_NoDup].
  intros x y E. by apply (inj (String.app (join_prefix path))) in E.
Qed.

End Distinct.

(** X19: where the entries of the tree have proper names and no directory
    lists a name twice, no two descriptors of the hierarchy have the same
    filename, whatever the root path is written like. *)
Theorem filenames_are_distinct (t : tree) (path : string) :
  wf_tree t = true → files_ok t = true → unique_names t = true →
  NoDup (map filename (build_local_hierarchy t path)).
Proof. apply build_filenames_NoDup. Qed.

Lemma filenames_are_distinct_witness :
  NoDup (map filename (build_local_hierarchy sample_tree "root")).
Proof. apply filenames_are_distinct; reflexivity. Defined.

(** X20: on the hierarchy of such a tree, the mapping that creation returns
    has as many entries as there are descriptors: no handle is overwritten
    by a later one. *)
Theorem no_handle_is_overwritten (env : Env) (url : string) (t : tree)
    (path : string) (flat : bool) (tr : trace)
    (m_end : gmap string PageBlock) (tr_end : trace) :
  wf_tree t = true → files_ok t = true → unique_names t = true →
  create_notion_hierarchy env url (build_local_hierarchy t path) flat tr
  = (inr m_end, tr_end) →
  size m_end = length (build_local_hierarchy t path).
Proof.
  intros Hwf Hok Huniq Hrun.
  destruct (create_run_registered _ _ _ _ _ _ _ Hrun) as [Hdom _].
  rewrite <- size_dom, Hdom, size_list_to_set, length_map; [done|].
  by apply build_filenames_NoDup.
Qed.

Lemma no_handle_is_overwritten_witness :
  ∃ m_end tr_end,
    create_notion_hierarchy env_ok "URL"
      (build_local_hierarchy sample_tree "root") true []
    = (inr m_end, tr_end)
    ∧ size m_end = length (build_local_hierarchy sample_tree "root").
Proof.
  destruct (create_notion_hierarchy env_ok "URL"
              (build_local_hierarchy sample_tree "root") true [])
    as [[e|m_end] tr_end] eqn:Hrun.
  { vm_compute in Hrun. discriminate Hrun. }
  exists m_end, tr_end. split; [reflexivity|].
  by apply (no_handle_is_overwritten env_ok "URL" sample_tree "root" true []
              m_end tr_end).
Defined.
